(** * Random test generation (pynguin/generation/algorithms/randoopy/algorithm.py)

    A shallow embedding of [RandomGenerationAlgorithm]: the generation loop
    [generate_sequences], one step [_generate_sequence], the operation
    selector [_random_public_method], the sequence sampler
    [_random_test_cases], the argument synthesis [_random_values] and the
    sequence extender [_extend].

    Python exceptions are a sum type, the global [random] generator and the
    collaborators' internals are one threaded state, and calls that cross the
    boundary of the algorithm (logger, value synthesiser, executor) leave an
    event in a trace. *)

From stdpp Require Import base list strings.
From Stdlib Require Import ZArith Lia Ascii.

Local Open Scope Z_scope.
Set Warnings "-register-all".

(** ** Exceptions *)

(** The exception classes the algorithm can meet.  [GenerationException] is
    [pynguin.utils.exceptions.GenerationException] with its message;
    [IndexError] and [ValueError] are the built-in ones raised by indexing
    and by the [random] module; [OtherException] stands for any other class
    raised by a collaborator or by the code under inspection.  [OutOfFuel] is
    not a Python exception: it stands for a call that does not return within
    the bound up to which the redraw loop of [random.sample] is followed;
    like a call that never returns, nothing catches it. *)
Inductive exn : Type :=
| GenerationException (args : string)
| IndexError
| ValueError
| OtherException (repr : string)
| OutOfFuel.

Inductive result (A : Type) : Type :=
| Ok (a : A)
| Raise (e : exn).
Arguments Ok {A} a.
Arguments Raise {A} e.

Definition is_generation_exception (e : exn) : bool :=
  match e with GenerationException _ => true | _ => false end.

(** ** Reflected Python objects *)

(** What [inspect.isclass], [inspect.ismethod] and [inspect.isfunction] find
    out about an object.  [KFaulty repr] is an object on which these
    predicates raise an exception (of a class other than
    [GenerationException]) whose [__repr__()] is [repr]. *)
Inductive kind : Type :=
| KModule
| KClass
| KMethod
| KFunction
| KOther
| KFaulty (repr : string).

(** [inspect.Parameter]: only its [annotation] is read.  [None] is
    [Parameter.empty], [Some t] an annotation naming the type [t]. *)
Record parameter : Type := { annotation : option string }.

(** A module, class, function or method as reflection presents it:
    [__name__]; the answer of the [inspect] predicates; the (name, value)
    pairs in the order [inspect.getmembers] visits them; and the ordered
    mapping [inspect.signature(o).parameters] ([None] when
    [inspect.signature] raises [ValueError]). *)
Inductive pyobject : Type :=
  PyObject {
    __name__ : string;
    py_kind : kind;
    py_attrs : list (string * pyobject);
    py_signature : option (list (string * parameter))
  }.

Definition isclass (o : pyobject) : bool :=
  match py_kind o with KClass => true | _ => false end.
Definition ismethod (o : pyobject) : bool :=
  match py_kind o with KMethod => true | _ => false end.
Definition isfunction (o : pyobject) : bool :=
  match py_kind o with KFunction => true | _ => false end.

(** ** Configuration *)

(** The two options of [pynguin.Configuration] that the algorithm reads;
    Python integers. *)
Record Configuration : Type := {
  max_sequence_length : Z;
  max_sequences_combined : Z
}.

(** ** Collaborators *)

(** Everything the algorithm imports from modules that are not part of it:
    the test-case classes, the statement factory, the value synthesiser, the
    executor, module discovery, and the state of the global random
    generator.  [world] is the state all of them share.

    - [test_case_eq_dec] is [TestCase.__eq__], which [in] uses;
    - [statements t] is [t.statements];
    - [DefaultTestCase] is the empty test case [dtc.DefaultTestCase()];
    - [append_test_case new t] is [new] after [new.append_test_case(t)];
    - [add_statement new s] is [new] after [new.add_statement(s)];
    - [randbelow n] is [Random._randbelow(n)] for [n > 0]: it yields a number
      below [n] and advances the generator;
    - [redraws] is how many times in a row the redraw loop of
      [random.sample] is followed before the call counts as not returning;
    - [get_members_from_module] is [pynguin.utils.utils.get_members_from_module];
    - [init_value] is [pynguin.generation.valuegeneration.init_value];
    - [create_statement] is [StatementFactory.create_statement];
    - [execute t] is [Executor.execute(t)], its result read as a truth value. *)
Class Collaborators : Type := {
  world : Type;
  value : Type;
  statement : Type;
  test_case : Type;
  test_case_eq_dec :: EqDecision test_case;
  statements : test_case → list statement;
  DefaultTestCase : test_case;
  append_test_case : test_case → test_case → test_case;
  add_statement : test_case → statement → test_case;
  randbelow : nat → world → nat * world;
  randbelow_lt : ∀ n w, (0 < n)%nat → ((randbelow n w).1 < n)%nat;
  redraws : nat;
  get_members_from_module :
    pyobject → world → result (list (string * pyobject)) * world;
  init_value : option string → list test_case → world → result value * world;
  create_statement :
    test_case → pyobject → list (string * parameter * value) →
    world → result statement * world;
  execute : test_case → world → result bool * world
}.

Section Effects.
Context `{Collaborators}.

(** ** Trace of boundary calls *)

(** One constructor per logging call of the source. *)
Inductive log_record : Type :=
| LogStart
| LogTimeLimit (time_limit : Z)
| LogModules (modules : list pyobject)
| LogGenerateFailed (exception : exn)
| LogFinish
| LogPassing (n : nat)
| LogFailing (n : nat)
| LogIterations (execution_counter : nat)
| LogInspectFailed (repr : string)
| LogSelected (selected available : nat)
| LogValue (callable_name : string) (param : parameter) (v : value)
| LogStatement (s : statement) (callable_name : string).

Inductive level : Type := INFO | DEBUG.

Inductive event : Type :=
| Logged (l : level) (r : log_record)
| InitValueCalled (type_ : option string) (sequences : list test_case)
| ExecuteCalled (t : test_case).

(** The state threaded through the algorithm: the collaborators' world and
    the trace. *)
Record state : Type := {
  st_world : world;
  st_trace : list event
}.

(** ** The effect monad: state and exceptions *)

Definition M (A : Type) : Type := state → result A * state.

Definition ret {A} (a : A) : M A := λ s, (Ok a, s).
Definition raise {A} (e : exn) : M A := λ s, (Raise e, s).
Definition bind {A B} (m : M A) (k : A → M B) : M B :=
  λ s, match m s with
       | (Ok a, s') => k a s'
       | (Raise e, s') => (Raise e, s')
       end.

Definition emit (e : event) : M unit :=
  λ s, (Ok tt, {| st_world := st_world s; st_trace := st_trace s ++ [e] |}).

Definition log (l : level) (r : log_record) : M unit := emit (Logged l r).

(** A collaborator acts on the world only. *)
Definition call {A} (f : world → result A * world) : M A :=
  λ s, let (r, w) := f (st_world s) in
       (r, {| st_world := w; st_trace := st_trace s |}).

End Effects.

Notation "x <- m ;; k" := (bind m (λ x, k))
  (at level 100, m at next level, right associativity,
   format "'[v' x  <-  m  ;;  '/' k ']'").
Notation "m ;;; k" := (bind m (λ _, k))
  (at level 100, right associativity).

Section Randoopy.
Context `{Collaborators}.

(** ** The [random] module *)

(** [Random._randbelow(n)]; a zero argument raises [ValueError]. *)
Definition _randbelow (n : nat) : M nat :=
  match n with
  | O => raise ValueError
  | S _ => call (λ w, let (i, w') := randbelow n w in (Ok i, w'))
  end.

(** [seq[i]] for a non-negative index. *)
Definition getitem {A} (seq : list A) (i : nat) : M A :=
  match seq !! i with
  | Some x => ret x
  | None => raise IndexError
  end.

(** [random.choice(seq)]: an empty sequence raises [IndexError]. *)
Definition choice {A} (seq : list A) : M A :=
  match seq with
  | [] => raise IndexError
  | _ => i <- _randbelow (length seq) ;; getitem seq i
  end.

(** [random.randint(a, b)], that is [randrange(a, b + 1)]: an empty range
    raises [ValueError]. *)
Definition randint (a b : Z) : M Z :=
  let width := b + 1 - a in
  if decide (0 < width)
  then i <- _randbelow (Z.to_nat width) ;; ret (a + Z.of_nat i)
  else raise ValueError.

(** The selection loop of [random.sample] over a copy [pool] of the
    population, of which the first [m] places are still to draw from: draw a
    place [j] below [m], take [pool[j]], and move [pool[m - 1]] into the
    hole. *)
Fixpoint sample_loop {A} (pool : list A) (m k : nat) : M (list A) :=
  match k with
  | O => ret []
  | S k' =>
      j <- _randbelow m ;;
      x <- getitem pool j ;;
      y <- getitem pool (m - 1) ;;
      rest <- sample_loop (<[j := y]> pool) (m - 1) k' ;;
      ret (x :: rest)
  end.

(** The least [m], counted up from [m], with [x ≤ 4 ^ m]. *)
Fixpoint log4_ceil_from (fuel m x : nat) : nat :=
  match fuel with
  | O => m
  | S fuel' => if decide (x ≤ 4 ^ m)%nat then m else log4_ceil_from fuel' (S m) x
  end.

(** [_ceil(_log(x, 4))] for [x ≥ 1] (the float logarithm gives the same
    whole number for every [x] below 4^20). *)
Definition log4_ceil (x : nat) : nat := log4_ceil_from x O x.

(** [setsize] in [random.sample]: 21, and for [k > 5] also
    [4 ** _ceil(_log(k * 3, 4))]. *)
Definition setsize (k : nat) : nat :=
  if decide (5 < k)%nat then (21 + 4 ^ log4_ceil (k * 3))%nat else 21%nat.

(** [while j in selected: j = randbelow(n)], followed for at most [fuel]
    redraws. *)
Fixpoint redraw (fuel n : nat) (selected : list nat) (j : nat) : M nat :=
  if decide (j ∈ selected)
  then match fuel with
       | O => raise OutOfFuel
       | S fuel' => j' <- _randbelow n ;; redraw fuel' n selected j'
       end
  else ret j.

(** The selection loop of [random.sample] that tracks the chosen places in
    the set [selected]: draw a place below [n], draw again while the place
    is taken, and take [population[j]]. *)
Fixpoint sample_set_loop {A} (population : list A) (n : nat)
    (selected : list nat) (k : nat) : M (list A) :=
  match k with
  | O => ret []
  | S k' =>
      j0 <- _randbelow n ;;
      j <- redraw redraws n selected j0 ;;
      x <- getitem population j ;;
      rest <- sample_set_loop population n (j :: selected) k' ;;
      ret (x :: rest)
  end.

(** [random.sample(population, k)]: a [k] that is negative or larger than the
    population raises [ValueError]; a population of at most [setsize]
    elements is sampled through a copy of it, a larger one through the set of
    chosen places. *)
Definition sample {A} (population : list A) (k : Z) : M (list A) :=
  let n := length population in
  if decide (0 ≤ k ≤ Z.of_nat n)
  then if decide (n ≤ setsize (Z.to_nat k))%nat
       then sample_loop population n (Z.to_nat k)
       else sample_set_loop population n [] (Z.to_nat k)
  else raise ValueError.

(** *** What a sample is, in terms of the generator's draws *)

(** The generator's successive draws below the given bounds, and the world
    after them. *)
Fixpoint draws (bounds : list nat) (w : world) : list nat * world :=
  match bounds with
  | [] => ([], w)
  | b :: bs =>
      let (j, w1) := randbelow b w in
      let (js, w2) := draws bs w1 in
      (j :: js, w2)
  end.



(** The values of [ds] that are not in [seen], each once, in the order in
    which they first appear. *)
Fixpoint first_occurrences (seen ds : list nat) : list nat :=
  match ds with
  | [] => []
  | d :: ds' =>
      if decide (d ∈ seen) then first_occurrences seen ds'
      else d :: first_occurrences (d :: seen) ds'
  end.

(** ** The clock *)

(** Points in time are microseconds, as [datetime] stores them.  A clock is
    a function [clock : nat → Z]: [clock i] is what the [i]-th call of
    [datetime.datetime.now()] of a run returns, counting from zero.  Only
    [generate_sequences] reads the clock: once for [start_time], then once
    per evaluation of the loop condition. *)

(** [(t - start_time).total_seconds() < time_limit]: the difference is a whole
    number of microseconds and [time_limit] a whole number of seconds (the
    float that [total_seconds] returns compares the same way for every limit
    below 2^34 seconds). *)
Definition before_deadline (t start_time time_limit : Z) : bool :=
  bool_decide (t - start_time < time_limit * 1000000).

(** ** Operation selector *)

(** The local function [inspect_member]: any exception of the [inspect]
    predicates is logged and wrapped in a [GenerationException]. *)
Definition inspect_member (member : pyobject) : M bool :=
  match py_kind member with
  | KFaulty repr =>
      log DEBUG (LogInspectFailed repr) ;;;
      raise (GenerationException ("Test member: " +:+ repr))
  | _ => ret (isclass member || ismethod member || isfunction member)
  end.

(** The loop of [inspect.getmembers] over the members, applying the
    predicate to each value. *)
Fixpoint getmembers_loop (attrs : list (string * pyobject))
    (predicate : pyobject → M bool) : M (list (string * pyobject)) :=
  match attrs with
  | [] => ret []
  | (key, v) :: rest =>
      keep <- predicate v ;;
      results <- getmembers_loop rest predicate ;;
      ret (if keep : bool then (key, v) :: results else results)
  end.

(** [inspect.getmembers(object, predicate)]: it first asks
    [isclass(object)], outside the predicate, so an object on which the
    [inspect] predicates raise makes [getmembers] raise that exception. *)
Definition getmembers (object : pyobject) (predicate : pyobject → M bool)
  : M (list (string * pyobject)) :=
  match py_kind object with
  | KFaulty repr => raise (OtherException repr)
  | _ => getmembers_loop (py_attrs object) predicate
  end.

(** [name[0]]: the empty string raises [IndexError]. *)
Definition first_char (name : string) : M ascii :=
  match name with
  | EmptyString => raise IndexError
  | String c _ => ret c
  end.

(** The test of the list comprehension:
    [not m[0][0] == "_" and not m[1].__name__ == "_recording_isinstance"]. *)
Definition is_public (c : ascii) (member : pyobject) : bool :=
  negb (bool_decide (c = "_"%char))
  && negb (bool_decide (__name__ member = "_recording_isinstance")).

(** The list comprehension that builds [public_members]. *)
Fixpoint public_members (members : list (string * pyobject))
  : M (list pyobject) :=
  match members with
  | [] => ret []
  | m :: rest =>
      c <- first_char m.1 ;;
      rest' <- public_members rest ;;
      ret (if is_public c m.2 then m.2 :: rest' else rest')
  end.

Definition _random_public_method (objects_under_test : list pyobject)
  : M pyobject :=
  object_under_test <- choice objects_under_test ;;
  members <- getmembers object_under_test inspect_member ;;
  public <- public_members members ;;
  match public with
  | [] =>
      raise (GenerationException
               (__name__ object_under_test +:+ " has no public callables."))
  | _ => choice public
  end.

(** ** Sequence sampler *)

Definition selectables (cfg : Configuration) (test_cases : list test_case)
  : list test_case :=
  if decide (max_sequence_length cfg = 0) then test_cases
  else filter (λ t, Z.of_nat (length (statements t)) < max_sequence_length cfg)
              test_cases.

Definition upper_bound (cfg : Configuration) (eligible : list test_case) : Z :=
  if decide (max_sequences_combined cfg = 0) then Z.of_nat (length eligible)
  else Z.min (Z.of_nat (length eligible)) (max_sequences_combined cfg).

Definition _random_test_cases (cfg : Configuration)
    (test_cases : list test_case) : M (list test_case) :=
  let selectables := selectables cfg test_cases in
  let upper_bound := upper_bound cfg selectables in
  k <- randint 0 upper_bound ;;
  new_test_cases <- sample selectables k ;;
  log DEBUG (LogSelected (length new_test_cases) (length test_cases)) ;;;
  ret new_test_cases.

(** ** Argument synthesis *)

(** [inspect.signature(callable_)]. *)
Definition signature (callable_ : pyobject) : M (list (string * parameter)) :=
  match py_signature callable_ with
  | Some parameters => ret parameters
  | None => raise ValueError
  end.

(** The call of the value synthesiser, recorded with its arguments. *)
Definition call_init_value (type_ : option string)
    (sequences : list test_case) : M value :=
  emit (InitValueCalled type_ sequences) ;;;
  call (init_value type_ sequences).

(** The [for] loop of [_random_values], with the list [values] built so
    far. *)
Fixpoint _random_values_loop (test_cases : list test_case)
    (callable_ : pyobject) (parameters : list (string * parameter))
    (values : list (string * parameter * value))
  : M (list (string * parameter * value)) :=
  match parameters with
  | [] => ret values
  | (name, param) :: rest =>
      v <- call_init_value (annotation param) test_cases ;;
      log DEBUG (LogValue (__name__ callable_) param v) ;;;
      _random_values_loop test_cases callable_ rest
                          (values ++ [(name, param, v)])
  end.

Definition _random_values (test_cases : list test_case) (callable_ : pyobject)
  : M (list (string * parameter * value)) :=
  sig <- signature callable_ ;;
  let parameters := filter (λ kv, kv.1 ≠ "self") sig in
  _random_values_loop test_cases callable_ parameters [].

(** ** Sequence extender *)

Definition _extend (callable_ : pyobject) (test_cases : list test_case)
    (values : list (string * parameter * value)) : M test_case :=
  let new_test := foldl append_test_case DefaultTestCase test_cases in
  stmt <- call (create_statement new_test callable_ values) ;;
  log DEBUG (LogStatement stmt (__name__ callable_)) ;;;
  ret (add_statement new_test stmt).

(** ** One step of the algorithm *)

(** The call of the executor, recorded with its argument. *)
Definition call_execute (t : test_case) : M bool :=
  emit (ExecuteCalled t) ;;; call (execute t).

(** [_generate_sequence] changes the two lists it is given in place and
    returns nothing; here it returns the two lists as they are afterwards.
    Both appends are the last action of their path, so a raised exception
    leaves the lists as they were. *)
Definition _generate_sequence (cfg : Configuration)
    (test_cases failing_test_cases : list test_case)
    (objects_under_test : list pyobject)
  : M (list test_case * list test_case) :=
  method <- _random_public_method objects_under_test ;;
  tests <- _random_test_cases cfg test_cases ;;
  values <- _random_values test_cases method ;;
  new_test_case <- _extend method tests values ;;
  if bool_decide (new_test_case ∈ test_cases)
     || bool_decide (new_test_case ∈ failing_test_cases)
  then ret (test_cases, failing_test_cases)
  else
    violated <- call_execute new_test_case ;;
    if violated : bool
    then ret (test_cases, failing_test_cases ++ [new_test_case])
    else ret (test_cases ++ [new_test_case], failing_test_cases).

(** ** Discovery *)

Fixpoint _find_objects_loop (types objects_under_test : list pyobject)
  : M (list pyobject) :=
  match types with
  | [] => ret objects_under_test
  | module :: rest =>
      members <- call (get_members_from_module module) ;;
      _find_objects_loop rest (objects_under_test ++ map snd members)
  end.

Definition _find_objects_under_test (types : list pyobject)
  : M (list pyobject) :=
  _find_objects_loop types types.

(** ** The generation loop *)

(** The local variables of [generate_sequences] that the loop changes. *)
Record locals : Type := {
  test_cases : list test_case;
  failing_test_cases : list test_case;
  execution_counter : nat
}.

Definition initial_locals : locals :=
  {| test_cases := []; failing_test_cases := []; execution_counter := 0 |}.

(** The body of the [while] loop: the [try] block and its handler for
    [GenerationException]; any other exception leaves the loop. *)
Definition loop_body (cfg : Configuration) (objects_under_test : list pyobject)
    (l : locals) : M locals :=
  λ s,
    let counter := S (execution_counter l) in
    match _generate_sequence cfg (test_cases l) (failing_test_cases l)
                             objects_under_test s with
    | (Ok (passing, failing), s') =>
        (Ok {| test_cases := passing; failing_test_cases := failing;
               execution_counter := counter |}, s')
    | (Raise (GenerationException args), s') =>
        (_ <- log DEBUG (LogGenerateFailed (GenerationException args)) ;;
         ret {| test_cases := test_cases l;
                failing_test_cases := failing_test_cases l;
                execution_counter := counter |}) s'
    | (Raise e, s') => (Raise e, s')
    end.

(** The [while] loop, entered when the clock has been read [reads] times;
    [None] when [fuel] evaluations of the condition did not reach the
    deadline. *)
Fixpoint while_loop (fuel : nat) (clock : nat → Z) (reads : nat)
    (cfg : Configuration) (time_limit start_time : Z)
    (objects_under_test : list pyobject)
    (l : locals) (s : state) : option (result locals * state) :=
  match fuel with
  | O => None
  | S fuel' =>
      if before_deadline (clock reads) start_time time_limit
      then match loop_body cfg objects_under_test l s with
           | (Ok l', s') =>
               while_loop fuel' clock (S reads) cfg time_limit start_time
                          objects_under_test l' s'
           | (Raise e, s') => Some (Raise e, s')
           end
      else Some (Ok l, s)
  end.

(** What [generate_sequences] does before the loop, the reading of
    [start_time] apart. *)
Definition prologue (time_limit : Z) (modules : list pyobject)
  : M (list pyobject) :=
  log INFO LogStart ;;;
  log DEBUG (LogTimeLimit time_limit) ;;;
  log DEBUG (LogModules modules) ;;;
  _find_objects_under_test modules.

(** What [generate_sequences] does after the loop. *)
Definition epilogue (l : locals) : M (list test_case * list test_case) :=
  log INFO LogFinish ;;;
  log DEBUG (LogPassing (length (test_cases l))) ;;;
  log DEBUG (LogFailing (length (failing_test_cases l))) ;;;
  log DEBUG (LogIterations (execution_counter l)) ;;;
  ret (test_cases l, failing_test_cases l).

Definition generate_sequences (fuel : nat) (clock : nat → Z)
    (cfg : Configuration) (time_limit : Z) (modules : list pyobject)
    (s : state) : option (result (list test_case * list test_case) * state) :=
  let start_time := clock O in
  match prologue time_limit modules s with
  | (Raise e, s1) => Some (Raise e, s1)
  | (Ok objects_under_test, s1) =>
      match while_loop fuel clock 1 cfg time_limit start_time
                       objects_under_test initial_locals s1 with
      | None => None
      | Some (Raise e, s2) => Some (Raise e, s2)
      | Some (Ok l, s2) => Some (epilogue l s2)
      end
  end.

(** ** Runs of a given number of iterations *)

(** [n] iterations of the loop body in a row, whatever the clock says. *)
Fixpoint iterate_body (n : nat) (cfg : Configuration)
    (objects_under_test : list pyobject) (l : locals) : M locals :=
  match n with
  | O => ret l
  | S n' =>
      l' <- loop_body cfg objects_under_test l ;;
      iterate_body n' cfg objects_under_test l'
  end.

(** The first four statements of [_generate_sequence]: the candidate. *)
Definition candidate (cfg : Configuration) (test_cases : list test_case)
    (objects_under_test : list pyobject) : M test_case :=
  method <- _random_public_method objects_under_test ;;
  tests <- _random_test_cases cfg test_cases ;;
  values <- _random_values test_cases method ;;
  _extend method tests values.

(** The rest of [_generate_sequence]: the duplicate check, the execution
    and the classification of the candidate. *)
Definition classify (test_cases failing_test_cases : list test_case)
    (new_test_case : test_case) : M (list test_case * list test_case) :=
  if bool_decide (new_test_case ∈ test_cases)
     || bool_decide (new_test_case ∈ failing_test_cases)
  then ret (test_cases, failing_test_cases)
  else
    violated <- call_execute new_test_case ;;
    if violated : bool
    then ret (test_cases, failing_test_cases ++ [new_test_case])
    else ret (test_cases ++ [new_test_case], failing_test_cases).

(** The locals after an iteration that left the pools [passing] and
    [failing]. *)
Definition next_locals (l : locals) (passing failing : list test_case)
  : locals :=
  {| test_cases := passing; failing_test_cases := failing;
     execution_counter := S (execution_counter l) |}.

(** A run that evaluates the loop condition true [n] times and then
    false. *)
Definition run (n : nat) (cfg : Configuration) (time_limit : Z)
    (modules : list pyobject)
  : M (list test_case * list test_case) :=
  objects_under_test <- prologue time_limit modules ;;
  l <- iterate_body n cfg objects_under_test initial_locals ;;
  epilogue l.

(** The deadline is first reached at the [n]-th evaluation of the loop
    condition. *)
Definition deadline_at (clock : nat → Z) (time_limit : Z) (n : nat) : Prop :=
  (∀ i, (i < n)%nat → clock (S i) - clock O < time_limit * 1000000)
  ∧ time_limit * 1000000 ≤ clock (S n) - clock O.

(** ** Reading the trace *)

Definition is_log (e : event) : Prop :=
  match e with Logged _ _ => True | _ => False end.

Definition not_execute (e : event) : Prop :=
  match e with ExecuteCalled _ => False | _ => True end.

(** The calls of the value synthesiser in a trace, with their arguments. *)
Definition init_value_calls (trace : list event)
  : list (option string * list test_case) :=
  omap (λ e, match e with
             | InitValueCalled type_ sequences => Some (type_, sequences)
             | _ => None
             end) trace.

(** The test cases handed to the executor in a trace. *)
Definition executed (trace : list event) : list test_case :=
  omap (λ e, match e with ExecuteCalled t => Some t | _ => None end) trace.

(** A name whose first character is an underscore. *)
Definition underscore_first (name : string) : Prop :=
  match name with
  | String c _ => c = "_"%char
  | EmptyString => False
  end.

#[export] Instance underscore_first_dec name : Decision (underscore_first name).
Proof. destruct name; simpl; apply _. Defined.

(** The members that the three [inspect] predicates accept. *)
Definition is_callable_member (m : string * pyobject) : Prop :=
  isclass m.2 || ismethod m.2 || isfunction m.2.

#[export] Instance is_callable_member_dec m : Decision (is_callable_member m).
Proof. unfold is_callable_member. apply _. Defined.

(** The members that pass the test of the list comprehension. *)
Definition is_public_member (m : string * pyobject) : Prop :=
  ¬ underscore_first m.1 ∧ __name__ m.2 ≠ "_recording_isinstance".

#[export] Instance is_public_member_dec m : Decision (is_public_member m).
Proof. unfold is_public_member. apply _. Defined.

(** The wording that every call of the value synthesiser in an iteration is
    passed the sequence accumulated from the sampled sequences (or, read
    loosely, the sampled sequences themselves). *)
Definition synthesiser_sees_accumulated (cfg : Configuration)
    (pool : list test_case) (objs : list pyobject) (s : state) : Prop :=
  ∀ method s1 tests s2 new s3,
    _random_public_method objs s = (Ok method, s1) →
    _random_test_cases cfg pool s1 = (Ok tests, s2) →
    candidate cfg pool objs s = (Ok new, s3) →
    ∀ c, c ∈ drop (length (init_value_calls (st_trace s)))
                  (init_value_calls (st_trace s3)) →
         c.2 = [foldl append_test_case DefaultTestCase tests] ∨ c.2 = tests.

(** The message of the exception for an owner without public members. *)
Definition no_public_callables (owner : pyobject) : exn :=
  GenerationException (__name__ owner +:+ " has no public callables.").

End Randoopy.

(** * A concrete set of collaborators

    Small, fully computable collaborators, used to run the algorithm on
    concrete inputs.  The random generator replays a tape of numbers. *)
Module Toy.

(** A value is a fresh primitive or a reference to the result of the
    statement at position [pos] of a sequence, which calls [callee]. *)
Inductive toy_value : Type :=
| Prim (n : nat)
| Ref (callee : string) (pos : nat).

Record toy_statement : Type := ToyCall {
  callee_name : string;
  arguments : list toy_value
}.

#[export] Instance toy_value_eq_dec : EqDecision toy_value.
Proof. solve_decision. Defined.
#[export] Instance toy_statement_eq_dec : EqDecision toy_statement.
Proof. solve_decision. Defined.

Definition shift_value (by_ : nat) (v : toy_value) : toy_value :=
  match v with
  | Prim n => Prim n
  | Ref c pos => Ref c (by_ + pos)
  end.

Definition shift_statement (by_ : nat) (s : toy_statement) : toy_statement :=
  ToyCall (callee_name s) (map (shift_value by_) (arguments s)).

(** Appending renumbers the references of the appended statements. *)
Definition toy_append (new t : list toy_statement) : list toy_statement :=
  new ++ map (shift_statement (length new)) t.

(** The generator replays its tape; an exhausted tape yields zeros. *)
Definition toy_randbelow (n : nat) (tape : list nat) : nat * list nat :=
  match tape with
  | [] => (O, [])
  | x :: tape' => (x `mod` n, tape')%nat
  end.

(** Modules named [broken] cannot be enumerated (the failure is a
    [GenerationException]); of the others, the classes and functions are the
    members. *)
Definition toy_get_members (module : pyobject) (tape : list nat)
  : result (list (string * pyobject)) * list nat :=
  if bool_decide (__name__ module = "broken")
  then (Raise (GenerationException "cannot enumerate broken"), tape)
  else (Ok (filter (λ m, isclass m.2 || isfunction m.2) (py_attrs module)),
        tape).

(** The synthesiser: no value for the type [unknown]; otherwise a reference
    to the last statement of the first non-empty sequence it is given, and a
    fresh zero when there is none. *)
Definition toy_init_value (type_ : option string)
    (sequences : list (list toy_statement)) (tape : list nat)
  : result toy_value * list nat :=
  if bool_decide (type_ = Some "unknown")
  then (Raise (GenerationException "no value for unknown"), tape)
  else
    match filter (λ t, t ≠ []) sequences with
    | t :: _ =>
        match last t with
        | Some s => (Ok (Ref (callee_name s) (length t - 1)), tape)
        | None => (Ok (Prim 0), tape)
        end
    | [] => (Ok (Prim 0), tape)
    end.

Definition toy_create_statement (new_test : list toy_statement)
    (callable_ : pyobject) (values : list (string * parameter * toy_value))
    (tape : list nat) : result toy_statement * list nat :=
  (Ok (ToyCall (__name__ callable_) (map snd values)), tape).

(** The executor reports a violation when the last call is to [fail]. *)
Definition toy_execute (t : list toy_statement) (tape : list nat)
  : result bool * list nat :=
  match last t with
  | Some s => (Ok (bool_decide (callee_name s = "fail")), tape)
  | None => (Ok false, tape)
  end.

Lemma toy_randbelow_lt n tape : (0 < n)%nat → ((toy_randbelow n tape).1 < n)%nat.
Proof.
  intros Hn. destruct tape as [|x tape]; simpl; [done|].
  apply Nat.mod_upper_bound. lia.
Qed.

#[export] Instance toy : Collaborators := {|
  world := list nat;
  value := toy_value;
  statement := toy_statement;
  test_case := list toy_statement;
  statements := λ t, t;
  DefaultTestCase := [];
  append_test_case := toy_append;
  add_statement := λ new s, new ++ [s];
  randbelow := toy_randbelow;
  randbelow_lt := toy_randbelow_lt;
  redraws := 64;
  get_members_from_module := toy_get_members;
  init_value := toy_init_value;
  create_statement := toy_create_statement;
  execute := toy_execute
|}.

Definition start (tape : list nat) : state :=
  {| st_world := tape; st_trace := [] |}.

Definition function (name : string) (parameters : list (string * parameter))
  : pyobject :=
  PyObject name KFunction [] (Some parameters).

Definition int_param : parameter := {| annotation := Some "int" |}.
Definition unknown_param : parameter := {| annotation := Some "unknown" |}.

(** A module with a public function [f(x: int)], a function [fail()], and
    a private function [_hidden()]. *)
Definition f : pyobject := function "f" [("x", int_param)].
Definition fail_ : pyobject := function "fail" [].
Definition hidden : pyobject := function "_hidden" [].
Definition module_a : pyobject :=
  PyObject "module_a" KModule
    [("_hidden", hidden); ("f", f); ("fail", fail_)] None.

(** A module that cannot be enumerated. *)
Definition broken : pyobject := PyObject "broken" KModule [] None.

(** A module whose only function is bound under the public name
    [isinstance] but is the recorder's [_recording_isinstance]. *)
Definition recorder : pyobject := function "_recording_isinstance" [].
Definition module_b : pyobject :=
  PyObject "module_b" KModule [("isinstance", recorder)] None.

Definition unbounded : Configuration :=
  {| max_sequence_length := 0; max_sequences_combined := 0 |}.

Definition capped : Configuration :=
  {| max_sequence_length := 2; max_sequences_combined := 1 |}.

(** The test case [f(0)] and the test case [f(0); f(0)]. *)
Definition t1 : list toy_statement := [ToyCall "f" [Prim 0]].
Definition t2 : list toy_statement :=
  [ToyCall "f" [Prim 0]; ToyCall "f" [Prim 0]].

(** A clock that advances one second per reading, one that advances 1.3
    seconds per reading, and one that advances three seconds per reading. *)
Definition seconds : nat → Z := λ i, Z.of_nat i * 1000000.
Definition brisk : nat → Z := λ i, Z.of_nat i * 1300000.
Definition slow : nat → Z := λ i, Z.of_nat i * 3000000.

(** Generator tapes and the runs they give. *)
Definition tape_pass_fail : list nat := [0; 0; 0; 0; 1; 0; 1; 1]%nat.
Definition tape_zeros : list nat := [0; 0; 0; 0; 0; 0; 0; 0; 0]%nat.

Definition three_iterations : result locals * state :=
  Eval vm_compute in
    iterate_body 3 unbounded [module_a] initial_locals (start tape_zeros).

Definition two_iterations : result locals * state :=
  Eval vm_compute in
    iterate_body 2 unbounded [module_a] initial_locals (start tape_pass_fail).

Definition candidate_from_t1 : result test_case * state :=
  Eval vm_compute in
    candidate unbounded [t1] [module_a] (start [0; 0; 0]%nat).

Definition discovered_a : list pyobject :=
  Eval vm_compute in
    match (prologue 4 [module_a] (start tape_pass_fail)).1 with
    | Ok objects_under_test => objects_under_test
    | Raise _ => []
    end.

Definition after_prologue_a : state :=
  Eval vm_compute in (prologue 4 [module_a] (start tape_pass_fail)).2.

Definition three_timed : result locals * state :=
  Eval vm_compute in
    iterate_body 3 unbounded discovered_a initial_locals after_prologue_a.

Definition run_seconds
  : option (result (list test_case * list test_case) * state) :=
  Eval vm_compute in
    generate_sequences 10 seconds unbounded 4 [module_a] (start tape_pass_fail).

Definition run_slow
  : option (result (list test_case * list test_case) * state) :=
  Eval vm_compute in
    generate_sequences 10 slow unbounded 4 [module_a] (start tape_pass_fail).

End Toy.

(** * Properties *)

Section Properties.
Context `{Collaborators}.

(** ** The monad *)

Lemma bind_ok {A B} (m : M A) (k : A → M B) s a s' :
  m s = (Ok a, s') → bind m k s = k a s'.
Proof. intros Hm. unfold bind. by rewrite Hm. Qed.

Lemma bind_raise {A B} (m : M A) (k : A → M B) s e s' :
  m s = (Raise e, s') → bind m k s = (Raise e, s').
Proof. intros Hm. unfold bind. by rewrite Hm. Qed.

Lemma bind_ok_inv {A B} (m : M A) (k : A → M B) s b s2 :
  bind m k s = (Ok b, s2) →
  ∃ a s1, m s = (Ok a, s1) ∧ k a s1 = (Ok b, s2).
Proof.
  unfold bind. destruct (m s) as [[a|e] s1] eqn:Hm; [eauto|discriminate].
Qed.

(** ** What a computation adds to the trace *)

(** [adds P m]: whatever [m] returns, it only appends events that satisfy
    [P] to the trace. *)
Definition adds {A} (P : event → Prop) (m : M A) : Prop :=
  ∀ s r s', m s = (r, s') →
    ∃ events, st_trace s' = st_trace s ++ events ∧ Forall P events.

Lemma adds_ret {A} P (a : A) : adds P (ret a).
Proof. intros s r s' [= <- <-]. exists []. by rewrite app_nil_r. Qed.

Lemma adds_raise {A} P e : adds P (raise (A:=A) e).
Proof. intros s r s' [= <- <-]. exists []. by rewrite app_nil_r. Qed.

Lemma adds_bind {A B} P (m : M A) (k : A → M B) :
  adds P m → (∀ a, adds P (k a)) → adds P (bind m k).
Proof.
  intros Hm Hk s r s'. unfold bind.
  destruct (m s) as [[a|e] s1] eqn:Hms.
  - intros Hks. destruct (Hm _ _ _ Hms) as (evs1 & E1 & F1).
    destruct (Hk a _ _ _ Hks) as (evs2 & E2 & F2).
    exists (evs1 ++ evs2). rewrite E2, E1, app_assoc.
    split; [done|]. by apply Forall_app.
  - intros [= <- <-]. eauto.
Qed.

Lemma adds_emit P e : P e → adds P (emit e).
Proof.
  intros He s r s' [= <- <-]. exists [e]. simpl. split; [done|].
  by constructor.
Qed.

Lemma adds_log P l r : P (Logged l r) → adds P (log l r).
Proof. apply adds_emit. Qed.

Lemma adds_call {A} P (f : world → result A * world) : adds P (call f).
Proof.
  intros s r s'. unfold call. destruct (f (st_world s)) as [r' w].
  intros [= <- <-]. exists []. simpl. by rewrite app_nil_r.
Qed.

Lemma adds_randbelow P n : adds P (_randbelow n).
Proof. destruct n; [apply adds_raise|apply adds_call]. Qed.

Lemma adds_getitem {A} P (seq : list A) i : adds P (getitem seq i).
Proof. unfold getitem. destruct (seq !! i); [apply adds_ret|apply adds_raise]. Qed.

Lemma adds_choice {A} P (seq : list A) : adds P (choice seq).
Proof.
  destruct seq; [apply adds_raise|].
  apply adds_bind; [apply adds_randbelow|intros; apply adds_getitem].
Qed.

Lemma adds_randint P a b : adds P (randint a b).
Proof.
  unfold randint. case_decide; [|apply adds_raise].
  apply adds_bind; [apply adds_randbelow|intros; apply adds_ret].
Qed.

Lemma adds_sample_loop {A} P (pool : list A) m k : adds P (sample_loop pool m k).
Proof.
  revert pool m. induction k as [|k IH]; intros pool m; simpl.
  - apply adds_ret.
  - repeat (apply adds_bind; [|intros]);
      auto using adds_randbelow, adds_getitem, adds_ret.
Qed.

Lemma adds_redraw P fuel n selected j : adds P (redraw fuel n selected j).
Proof.
  revert j. induction fuel as [|fuel IH]; intros j; simpl;
    case_decide; try apply adds_ret; [apply adds_raise|].
  apply adds_bind; [apply adds_randbelow|intros; apply IH].
Qed.

Lemma adds_sample_set_loop {A} P (population : list A) n selected k :
  adds P (sample_set_loop population n selected k).
Proof.
  revert selected. induction k as [|k IH]; intros selected; simpl.
  - apply adds_ret.
  - repeat (apply adds_bind; [|intros]);
      auto using adds_randbelow, adds_redraw, adds_getitem, adds_ret.
Qed.

Lemma adds_sample {A} P (population : list A) k : adds P (sample population k).
Proof.
  unfold sample. case_decide; [|apply adds_raise].
  case_decide; [apply adds_sample_loop|apply adds_sample_set_loop].
Qed.

(** ** The [random] module *)

Lemma randbelow_ok n s :
  (0 < n)%nat →
  _randbelow n s =
    (Ok (randbelow n (st_world s)).1,
     {| st_world := (randbelow n (st_world s)).2; st_trace := st_trace s |}).
Proof.
  intros Hn. destruct n; [lia|]. unfold _randbelow, call.
  by destruct (randbelow (S n) (st_world s)).
Qed.

Lemma choice_ok {A} (seq : list A) s :
  seq ≠ [] →
  ∃ x,
    seq !! (randbelow (length seq) (st_world s)).1 = Some x
    ∧ choice seq s =
        (Ok x, {| st_world := (randbelow (length seq) (st_world s)).2;
                  st_trace := st_trace s |}).
Proof.
  intros Hne.
  assert (0 < length seq)%nat as Hlen by (destruct seq; [done|simpl; lia]).
  pose proof (randbelow_lt _ (st_world s) Hlen) as Hlt.
  destruct (lookup_lt_is_Some_2 seq _ Hlt) as [x Hx].
  exists x. split; [done|].
  destruct seq as [|a seq']; [done|]. unfold choice.
  erewrite bind_ok by (by apply randbelow_ok).
  unfold getitem. by rewrite Hx.
Qed.

(** Taking [pool[j]] and moving the last of the first [m] places into the
    hole leaves the same elements. *)
Lemma swap_out {A} (pool : list A) (m j : nat) x y :
  (j < m)%nat →
  pool !! j = Some x → pool !! (m - 1)%nat = Some y →
  x :: take (m - 1) (<[j := y]> pool) ≡ₚ take m pool.
Proof.
  intros Hj Hx Hy. destruct m as [|m]; [lia|].
  replace (S m - 1)%nat with m in * by lia.
  rewrite (take_S_r pool m y) by done.
  destruct (decide (j = m)) as [->|Hne].
  - rewrite take_insert_ge by lia. rewrite Hx in Hy. injection Hy as ->.
    apply Permutation_cons_append.
  - rewrite take_insert_lt by lia.
    assert (take m pool !! j = Some x) as Hjx
      by (rewrite lookup_take_lt by lia; done).
    rewrite <- (take_drop_middle (take m pool) j x) at 2 by done.
    rewrite insert_take_drop
      by (apply lookup_lt_Some in Hjx; done).
    rewrite <- app_assoc. simpl.
    etrans; [|apply Permutation_middle].
    apply perm_skip, Permutation_app_head, Permutation_cons_append.
Qed.

Lemma sample_loop_ok {A} (pool : list A) (m k : nat) s :
  (k ≤ m ≤ length pool)%nat →
  ∃ l s',
    sample_loop pool m k s = (Ok l, s')
    ∧ length l = k
    ∧ l ⊆+ take m pool
    ∧ st_trace s' = st_trace s.
Proof.
  revert pool m s. induction k as [|k IH]; intros pool m s Hk; simpl.
  - exists [], s. split; [done|]. split; [done|].
    split; [apply submseteq_nil_l|done].
  - assert (0 < m)%nat as Hm by lia.
    pose proof (randbelow_lt _ (st_world s) Hm) as Hj.
    set (j := (randbelow m (st_world s)).1) in *.
    destruct (lookup_lt_is_Some_2 pool j) as [x Hx]; [lia|].
    destruct (lookup_lt_is_Some_2 pool (m - 1)) as [y Hy]; [lia|].
    erewrite bind_ok by (by apply randbelow_ok). fold j.
    unfold getitem at 1. rewrite Hx.
    erewrite bind_ok by reflexivity.
    unfold getitem at 1. rewrite Hy.
    erewrite bind_ok by reflexivity.
    edestruct (IH (<[j := y]> pool) (m - 1)%nat) as (l & s' & Hrun & Hlen & Hsub & Htr).
    { rewrite length_insert. lia. }
    erewrite bind_ok by exact Hrun.
    exists (x :: l), s'. split; [done|]. split; [simpl; lia|].
    split; [|exact Htr].
    rewrite <- (swap_out pool m j x y) by (done || lia).
    by apply submseteq_skip.
Qed.


Lemma draws_lt n : (0 < n)%nat → ∀ t w, Forall (λ d, (d < n)%nat) (draws (replicate t n) w).1.
Proof.
  intros Hn t. induction t as [|t IH]; intros w; simpl; [constructor|].
  pose proof (randbelow_lt n w Hn) as Hlt.
  destruct (randbelow n w) as [j w1]. specialize (IH w1).
  destruct (draws (replicate t n) w1) as [js w2]. simpl in *.
  by constructor.
Qed.

Lemma draws_app n a b w :
  draws (replicate (a + b) n) w =
    ((draws (replicate a n) w).1
     ++ (draws (replicate b n) (draws (replicate a n) w).2).1,
     (draws (replicate b n) (draws (replicate a n) w).2).2).
Proof.
  revert w. induction a as [|a IH]; intros w; simpl.
  - by destruct (draws (replicate b n) w).
  - destruct (randbelow n w) as [j w1]. rewrite IH.
    destruct (draws (replicate a n) w1) as [js w2]. simpl.
    by destruct (draws (replicate b n) w2).
Qed.

(** Draws that are taken already do not count. *)
Lemma first_occurrences_rejected seen rejected ds :
  Forall (λ d, d ∈ seen) rejected →
  first_occurrences seen (rejected ++ ds) = first_occurrences seen ds.
Proof.
  induction 1 as [|d rejected Hd _ IH]; simpl; [done|].
  by rewrite decide_True.
Qed.

Lemma first_occurrences_fresh seen ds :
  NoDup (first_occurrences seen ds)
  ∧ ∀ d, d ∈ first_occurrences seen ds → (d ∉ seen) ∧ d ∈ ds.
Proof.
  revert seen. induction ds as [|d ds IH]; intros seen; simpl.
  - split; [constructor|]. intros d Hd. by apply elem_of_nil in Hd.
  - case_decide as Hseen.
    + destruct (IH seen) as [Hnd Hnew]. split; [done|].
      intros d' Hd'. destruct (Hnew d' Hd'). split; [done|by right].
    + destruct (IH (d :: seen)) as [Hnd Hnew]. split.
      * constructor; [|done]. intros Hd. apply Hnew in Hd as [Hd _].
        apply Hd. by left.
      * intros d' [->|Hd']%elem_of_cons; [split; [done|by left]|].
        destruct (Hnew d' Hd') as [Hn Hin]. split; [|by right].
        intros Hs. apply Hn. by right.
Qed.

(** The redraw loop: the draws it makes, all taken but the one it
    returns. *)
Lemma redraw_inv n selected :
  (0 < n)%nat →
  ∀ fuel j s r s',
    redraw fuel n selected j s = (r, s') →
    ∃ t,
      st_world s' = (draws (replicate t n) (st_world s)).2
      ∧ st_trace s' = st_trace s
      ∧ ((∃ j' rejected,
             r = Ok j'
             ∧ j :: (draws (replicate t n) (st_world s)).1 = rejected ++ [j']
             ∧ Forall (λ d, d ∈ selected) rejected ∧ j' ∉ selected)
         ∨ (r = Raise OutOfFuel
            ∧ Forall (λ d, d ∈ selected)
                     (j :: (draws (replicate t n) (st_world s)).1)
            ∧ t = fuel)).
Proof.
  intros Hn. induction fuel as [|fuel IH]; intros j s r s'; simpl.
  - case_decide as Hj; intros [= <- <-]; exists O; simpl;
      (split; [done|]); (split; [done|]).
    + right. split; [done|]. split; [by repeat constructor|done].
    + left. exists j, []. split; [done|]. split; [done|]. by split.
  - case_decide as Hj.
    + rewrite (bind_ok _ _ _ _ _ (randbelow_ok n s Hn)). intros Hrun.
      apply IH in Hrun as (t & Hw & Htr & Hcases). simpl in Hw, Htr.
      exists (S t). simpl.
      destruct (randbelow n (st_world s)) as [j1 w1]. simpl in *.
      destruct (draws (replicate t n) w1) as [js w2]. simpl in *.
      split; [done|]. split; [done|].
      destruct Hcases as [(j' & rejected & -> & Heq & Hrej & Hnew)
                         |(-> & Hall & ->)].
      * left. exists j', (j :: rejected). split; [done|].
        split; [simpl; by rewrite <- Heq|]. split; [by constructor|done].
      * right. split; [done|]. split; [by constructor|done].
    + intros [= <- <-]. exists O. simpl. split; [done|]. split; [done|].
      left. exists j, []. split; [done|]. split; [done|]. by split.
Qed.

(** The set branch: the places it takes are the distinct values among the
    generator's successive draws below [n], in the order of their first
    appearance; the only way not to return is a redraw loop that is not
    followed to its end. *)
Lemma sample_set_loop_inv {A} (population : list A) :
  (0 < length population)%nat →
  ∀ k selected s r s',
    sample_set_loop population (length population) selected k s = (r, s') →
    ∃ t,
      st_world s'
      = (draws (replicate t (length population)) (st_world s)).2
      ∧ st_trace s' = st_trace s
      ∧ ((∃ l, r = Ok l
               ∧ length l = k
               ∧ Forall2 (λ i x, population !! i = Some x)
                   (first_occurrences selected
                      (draws (replicate t (length population))
                             (st_world s)).1) l)
         ∨ r = Raise OutOfFuel).
Proof.
  intros Hn. set (n := length population) in *.
  induction k as [|k IH]; intros selected s r s'; simpl.
  - intros [= <- <-]. exists O. simpl. split; [done|]. split; [done|].
    left. exists []. split; [done|]. split; [done|]. constructor.
  - rewrite (bind_ok _ _ _ _ _ (randbelow_ok n s Hn)).
    pose proof (randbelow_lt n (st_world s) Hn) as Hj0.
    set (s0 := {| st_world := (randbelow n (st_world s)).2;
                  st_trace := st_trace s |}).
    unfold bind at 1.
    destruct (redraw redraws n selected (randbelow n (st_world s)).1 s0)
      as [r1 s1] eqn:Hredraw.
    apply (redraw_inv n selected Hn) in Hredraw as (t1 & Hw1 & Htr1 & Hcases).
    pose proof (draws_lt n Hn t1 (st_world s0)) as Hlt1.
    destruct Hcases as [(j & rejected & -> & Heq & Hrej & Hnew)
                       |(-> & _ & _)]; last first.
    { intros [= <- <-]. exists (1 + t1)%nat.
      rewrite (draws_app n 1 t1). simpl.
      destruct (randbelow n (st_world s)) as [j0 w0]. simpl in *.
      split; [done|]. split; [done|]. by right. }
    assert (j < n)%nat as Hj.
    { assert (Forall (λ d, (d < n)%nat)
                (((randbelow n (st_world s)).1
                  :: (draws (replicate t1 n) (st_world s0)).1)))
        as Hall by (by constructor).
      rewrite Heq in Hall. apply Forall_app in Hall as [_ Hall].
      by inversion_clear Hall. }
    destruct (lookup_lt_is_Some_2 population j Hj) as [x Hx].
    unfold getitem. rewrite Hx. unfold bind at 1. simpl.
    unfold bind at 1.
    destruct (sample_set_loop population n (j :: selected) k s1)
      as [r2 s2] eqn:Hrest.
    apply IH in Hrest as (t2 & Hw2 & Htr2 & Hcases2).
    assert (draws (replicate (1 + t1 + t2) n) (st_world s)
            = (rejected ++ [j] ++ (draws (replicate t2 n) (st_world s1)).1,
               (draws (replicate t2 n) (st_world s1)).2)) as Hdraws.
    { rewrite (draws_app n (1 + t1) t2), (draws_app n 1 t1). simpl.
      destruct (randbelow n (st_world s)) as [j0 w0]. simpl in *.
      rewrite <- Hw1. rewrite app_comm_cons, Heq, <- app_assoc. done. }
    destruct Hcases2 as [(l & -> & Hlen & Hall)| ->]; intros [= <- <-];
      exists (1 + t1 + t2)%nat; rewrite Hdraws; simpl;
      (split; [exact Hw2|]); (split; [by rewrite Htr2, Htr1|]); [|by right].
    left. exists (x :: l). split; [done|]. split; [simpl; lia|].
    rewrite first_occurrences_rejected by done. simpl.
    rewrite decide_False by done. by constructor.
Qed.

(** Looking a list up at distinct places gives a sub-multiset of it. *)
Lemma lookups_all {A} (pre population : list A) :
  seq (length pre) (length population)
    ≫= (λ i, option_list ((pre ++ population) !! i))
  = population.
Proof.
  revert pre. induction population as [|x population IH]; intros pre; [done|].
  simpl. rewrite lookup_app_r, Nat.sub_diag by lia. simpl. f_equal.
  specialize (IH (pre ++ [x])). rewrite length_app, <- app_assoc in IH.
  simpl in IH. by rewrite Nat.add_1_r in IH.
Qed.

Lemma lookups_submseteq {A} (population : list A) idxs l :
  NoDup idxs →
  Forall2 (λ i x, population !! i = Some x) idxs l →
  l ⊆+ population.
Proof.
  intros Hnd Hall.
  assert (∀ i, i ∈ idxs → (i < length population)%nat) as Hbound.
  { intros i Hi. apply list_elem_of_lookup in Hi as [p Hp].
    destruct (Forall2_lookup_l _ _ _ _ _ Hall Hp) as (x & _ & Hx).
    by apply lookup_lt_Some in Hx. }
  assert (idxs ≫= (λ i, option_list (population !! i)) = l) as <-.
  { clear Hbound Hnd. induction Hall as [|i x idxs l Hi _ IH]; [done|].
    simpl. rewrite Hi. simpl. by f_equal. }
  pose proof (lookups_all [] population) as Hpop. simpl in Hpop.
  transitivity (seq 0 (length population)
                  ≫= (λ i, option_list (population !! i)));
    [|by rewrite Hpop].
  apply bind_submseteq. apply NoDup_submseteq; [done|].
  intros i Hi. apply elem_of_seq. split; [lia|]. simpl. by apply Hbound.
Qed.

(** What [random.sample] returns when it returns. *)
Lemma sample_ok_inv {A} (population : list A) (k : Z) s l s' :
  sample population k s = (Ok l, s') →
  Z.of_nat (length l) = k
  ∧ l ⊆+ population
  ∧ st_trace s' = st_trace s.
Proof.
  unfold sample. case_decide as Hk; [|discriminate].
  case_decide as Hsize.
  - destruct (sample_loop_ok population (length population) (Z.to_nat k) s)
      as (l' & s1 & Hrun & Hlen & Hsub & Htr); [lia|].
    rewrite Hrun. intros [= <- <-]. rewrite firstn_all in Hsub.
    split; [lia|]. by split.
  - intros Hrun.
    assert (0 < length population)%nat as Hn
      by (unfold setsize in Hsize; case_decide; lia).
    apply (sample_set_loop_inv population Hn) in Hrun
      as (t & Hw & Htr & [(l' & [= <-] & Hlen & Hall)|[=]]).
    split; [lia|]. split; [|done].
    eapply lookups_submseteq; [|exact Hall].
    apply first_occurrences_fresh.
Qed.

(** [random.sample] returns, or its redraw loop is not followed to its end,
    which can only be in the set branch. *)
Lemma sample_outcome {A} (population : list A) (k : Z) s :
  0 ≤ k ≤ Z.of_nat (length population) →
  (∃ l s', sample population k s = (Ok l, s'))
  ∨ ((setsize (Z.to_nat k) < length population)%nat
     ∧ ∃ s', sample population k s = (Raise OutOfFuel, s')).
Proof.
  intros Hk. unfold sample. rewrite decide_True by done.
  case_decide as Hsize.
  - left.
    destruct (sample_loop_ok population (length population) (Z.to_nat k) s)
      as (l & s' & Hrun & _); [lia|]. eauto.
  - assert (0 < length population)%nat as Hn
      by (unfold setsize in Hsize; case_decide; lia).
    destruct (sample_set_loop population (length population) []
                (Z.to_nat k) s) as [r s'] eqn:Hrun.
    pose proof Hrun as Hrun'.
    apply (sample_set_loop_inv population Hn) in Hrun'
      as (t & _ & _ & [(l & -> & _)| ->]); [left; eauto|].
    right. split; [lia|eauto].
Qed.

Lemma randint_ok (a b : Z) s :
  a ≤ b →
  randint a b s =
    (Ok (a + Z.of_nat (randbelow (Z.to_nat (b + 1 - a)) (st_world s)).1),
     {| st_world := (randbelow (Z.to_nat (b + 1 - a)) (st_world s)).2;
        st_trace := st_trace s |}).
Proof.
  intros Hab. unfold randint. rewrite decide_True by lia.
  erewrite bind_ok by (apply randbelow_ok; lia). done.
Qed.

(** An empty range makes [randint] raise [ValueError]. *)
Lemma randint_empty_range (a b : Z) s :
  b < a → randint a b s = (Raise ValueError, s).
Proof. intros Hab. unfold randint. by rewrite decide_False by lia. Qed.

(** ** Sequence sampler *)

Lemma submseteq_elem {A} (l k : list A) x : l ⊆+ k → x ∈ l → x ∈ k.
Proof.
  intros [k' Hk]%submseteq_Permutation Hx. rewrite Hk.
  apply elem_of_app. by left.
Qed.


Lemma upper_bound_range cfg (eligible : list test_case) :
  0 ≤ max_sequences_combined cfg →
  0 ≤ upper_bound cfg eligible ≤ Z.of_nat (length eligible).
Proof. intros Hc. unfold upper_bound. case_decide; lia. Qed.

Lemma elem_of_selectables cfg (pool : list test_case) t :
  t ∈ selectables cfg pool ↔
  t ∈ pool ∧ (max_sequence_length cfg ≠ 0 →
              Z.of_nat (length (statements t)) < max_sequence_length cfg).
Proof.
  unfold selectables. case_decide as Hlen.
  - split; [intros; split; [done|congruence]|by intros [? _]].
  - rewrite list_elem_of_filter. split; intros [? ?]; split; auto.
Qed.


(** The sampler after its first draw: the size is the generator's draw
    below [bound + 1]; the sample is taken in the world after that draw. *)
Lemma random_test_cases_after_size cfg (pool : list test_case) s :
  0 ≤ max_sequences_combined cfg →
  let eligible := selectables cfg pool in
  let bound := upper_bound cfg eligible in
  let size := (randbelow (Z.to_nat (bound + 1)) (st_world s)).1 in
  let s1 := {| st_world := (randbelow (Z.to_nat (bound + 1)) (st_world s)).2;
               st_trace := st_trace s |} in
  0 ≤ Z.of_nat size ≤ bound
  ∧ bound ≤ Z.of_nat (length eligible)
  ∧ _random_test_cases cfg pool s =
      bind (sample eligible (Z.of_nat size))
           (λ new_test_cases,
              bind (log DEBUG (LogSelected (length new_test_cases)
                                           (length pool)))
                   (λ _, ret new_test_cases)) s1.
Proof.
  intros Hcap eligible bound size s1.
  pose proof (upper_bound_range cfg eligible Hcap) as Hbound. fold bound in Hbound.
  assert (0 < Z.to_nat (bound + 1))%nat as Hpos by lia.
  pose proof (randbelow_lt _ (st_world s) Hpos) as Hdraw. fold size in Hdraw.
  split; [lia|]. split; [lia|].
  unfold _random_test_cases. fold eligible. fold bound.
  rewrite (bind_ok _ _ _ _ _ (randint_ok 0 bound s ltac:(lia))).
  replace (bound + 1 - 0) with (bound + 1) by lia. done.
Qed.


(** What the sampler returns when it returns. *)
Lemma random_test_cases_ok_inv cfg (pool : list test_case) s tests s' :
  _random_test_cases cfg pool s = (Ok tests, s') →
  tests ⊆+ selectables cfg pool
  ∧ Z.of_nat (length tests) ≤ upper_bound cfg (selectables cfg pool)
  ∧ 0 ≤ max_sequences_combined cfg
  ∧ length tests
    = (randbelow (Z.to_nat (upper_bound cfg (selectables cfg pool) + 1))
                 (st_world s)).1.
Proof.
  intros Hrun.
  destruct (decide (0 ≤ max_sequences_combined cfg)) as [Hcap|Hneg];
    last first.
  { unfold _random_test_cases in Hrun.
    rewrite (bind_raise _ _ s ValueError s) in Hrun; [done|].
    apply randint_empty_range.
    unfold upper_bound. rewrite decide_False by lia. lia. }
  destruct (random_test_cases_after_size cfg pool s Hcap) as (Hsize & _ & Heq).
  rewrite Heq in Hrun.
  apply bind_ok_inv in Hrun as (l & s2 & Hsample & Hlog).
  apply bind_ok_inv in Hlog as ([] & s3 & _ & [= <- _]).
  apply sample_ok_inv in Hsample as (Hlen & Hsub & _).
  split; [done|]. split; [lia|]. split; [done|lia].
Qed.

(** Outside the range of the caps: a negative [max_sequences_combined] makes
    the range of [randint] empty. *)
Lemma random_test_cases_negative_cap cfg (pool : list test_case) s :
  max_sequences_combined cfg < 0 →
  _random_test_cases cfg pool s = (Raise ValueError, s).
Proof.
  intros Hneg. unfold _random_test_cases.
  apply bind_raise, randint_empty_range.
  unfold upper_bound. rewrite decide_False by lia. lia.
Qed.


(** ** Operation selector *)

Lemma inspect_member_ok member s b s' :
  inspect_member member s = (Ok b, s') →
  b = (isclass member || ismethod member || isfunction member) ∧ s' = s.
Proof.
  unfold inspect_member, isclass, ismethod, isfunction.
  destruct (py_kind member); by intros [= <- <-].
Qed.

Lemma getmembers_loop_ok attrs s members s' :
  getmembers_loop attrs inspect_member s = (Ok members, s') →
  members = filter is_callable_member attrs ∧ s' = s.
Proof.
  revert s s' members.
  induction attrs as [|[key v] attrs IH]; intros s s' members; simpl.
  - by intros [= <- <-].
  - intros Hrun.
    apply bind_ok_inv in Hrun as (keep & s1 & Hkeep & Hrun).
    apply inspect_member_ok in Hkeep as [-> ->].
    apply bind_ok_inv in Hrun as (results & s2 & Hrest & Hret).
    destruct (IH _ _ _ Hrest) as [-> ->]. injection Hret as <- <-.
    split; [|done].
    destruct (isclass v || ismethod v || isfunction v) eqn:E.
    + rewrite filter_cons_True; [done|].
      change (Is_true (isclass v || ismethod v || isfunction v)).
      by rewrite E.
    + rewrite filter_cons_False; [done|].
      change (¬ Is_true (isclass v || ismethod v || isfunction v)).
      rewrite E. by intros [].
Qed.

(** The owner is examined first: members are listed only for an owner whose
    inspection does not raise. *)
Lemma getmembers_ok owner s members s' :
  getmembers owner inspect_member s = (Ok members, s') →
  members = filter is_callable_member (py_attrs owner) ∧ s' = s.
Proof.
  unfold getmembers.
  destruct (py_kind owner); try apply getmembers_loop_ok. discriminate.
Qed.

Lemma is_public_spec c rest member :
  is_public c member = true ↔ is_public_member (String c rest, member).
Proof.
  unfold is_public, is_public_member; simpl.
  rewrite andb_true_iff, !negb_true_iff, !bool_decide_eq_false. done.
Qed.

Lemma public_members_ok members s public s' :
  public_members members s = (Ok public, s') →
  public = (filter is_public_member members).*2 ∧ s' = s.
Proof.
  revert s s' public.
  induction members as [|[name v] members IH]; intros s s' public; simpl.
  - by intros [= <- <-].
  - intros Hrun.
    apply bind_ok_inv in Hrun as (c & s1 & Hc & Hrun).
    destruct name as [|c' rest]; [discriminate|]. injection Hc as <- <-.
    apply bind_ok_inv in Hrun as (rest' & s2 & Hrest & Hret).
    destruct (IH _ _ _ Hrest) as [-> ->]. injection Hret as <- <-.
    split; [|done].
    destruct (is_public c' v) eqn:E.
    + apply is_public_spec with (rest := rest) in E.
      by rewrite filter_cons_True.
    + rewrite filter_cons_False; [done|].
      intros Hp. apply (is_public_spec c' rest v) in Hp. congruence.
Qed.

(** What the selector computes as [public_members] for an owner. *)
Lemma public_of_owner owner s members s1 public s2 :
  getmembers owner inspect_member s = (Ok members, s1) →
  public_members members s1 = (Ok public, s2) →
  public =
    (filter (λ m, is_callable_member m ∧ is_public_member m)
            (py_attrs owner)).*2
  ∧ s2 = s ∧ s1 = s.
Proof.
  intros Hm Hp. apply getmembers_ok in Hm as [-> ->].
  apply public_members_ok in Hp as [-> ->]. split; [|done].
  f_equal. rewrite list_filter_filter. apply list_filter_iff.
  intros m. tauto.
Qed.

Lemma selector_after_choice objs s owner s1 public :
  choice objs s = (Ok owner, s1) →
  getmembers owner inspect_member s1 = (Ok (filter is_callable_member (py_attrs owner)), s1) →
  public_members (filter is_callable_member (py_attrs owner)) s1 = (Ok public, s1) →
  _random_public_method objs s =
    match public with
    | [] => (Raise (no_public_callables owner), s1)
    | _ => choice public s1
    end.
Proof.
  intros Hc Hm Hp. unfold _random_public_method.
  rewrite (bind_ok _ _ _ _ _ Hc), (bind_ok _ _ _ _ _ Hm), (bind_ok _ _ _ _ _ Hp).
  by destruct public.
Qed.

(** An empty catalog makes [random.choice] raise [IndexError], which the
    loop does not catch. *)
Lemma selector_empty_catalog cfg l s :
  _random_public_method [] s = (Raise IndexError, s)
  ∧ loop_body cfg [] l s = (Raise IndexError, s).
Proof. split; reflexivity. Qed.

(** C8: from a catalog that is not empty, the selector takes the entry at the
    place the generator draws below the catalog's length as the owner.  When
    the owner's members can be listed, the candidates are the members that the
    [inspect] predicates accept and the visibility filter keeps; the selector
    raises the exception [<owner> has no public callables.] if and only if no
    candidate is left, and otherwise returns the candidate at the place the
    generator draws next. *)
Theorem C8_operation_selector (objs : list pyobject) s :
  objs ≠ [] →
  ∃ owner s1,
    objs !! (randbelow (length objs) (st_world s)).1 = Some owner
    ∧ choice objs s = (Ok owner, s1)
    ∧ ∀ members public s2 s3,
        getmembers owner inspect_member s1 = (Ok members, s2) →
        public_members members s2 = (Ok public, s3) →
        public = (filter (λ m, is_callable_member m ∧ is_public_member m)
                         (py_attrs owner)).*2
        ∧ (public = [] ↔
           ∃ s', _random_public_method objs s
                 = (Raise (no_public_callables owner), s'))
        ∧ (public ≠ [] →
           ∃ method s',
             _random_public_method objs s = (Ok method, s')
             ∧ public !! (randbelow (length public) (st_world s1)).1
               = Some method).
Proof.
  intros Hne. destruct (choice_ok objs s Hne) as (owner & Hlook & Hchoice).
  eexists owner, _. split; [exact Hlook|]. split; [exact Hchoice|].
  intros members public s2 s3 Hm Hp.
  destruct (public_of_owner _ _ _ _ _ _ Hm Hp) as (Hpub & -> & ->).
  pose proof Hm as Hm'. apply getmembers_ok in Hm' as [-> _].
  pose proof (selector_after_choice _ _ _ _ _ Hchoice Hm Hp) as Hsel.
  split; [exact Hpub|]. split.
  - split.
    + intros Hnil. rewrite Hnil in Hsel. eauto.
    + intros [s' Hraise]. destruct public as [|m public']; [done|].
      rewrite Hraise in Hsel.
      match type of Hsel with _ = choice _ ?st =>
        destruct (choice_ok (m :: public') st ltac:(done)) as (x & _ & Hx)
      end.
      rewrite Hx in Hsel. discriminate.
  - intros Hpne.
    match type of Hm with getmembers _ _ ?st = _ =>
      destruct (choice_ok public st Hpne) as (x & Hlookx & Hx)
    end.
    exists x. eexists. split; [|exact Hlookx].
    rewrite Hsel. destruct public; [done|exact Hx].
Qed.

(** C10: the candidates of the selector are exactly the members of the owner
    that the [inspect] predicates accept, whose binding name does not begin
    with an underscore, and whose [__name__] is not [_recording_isinstance].
    So a member whose [__name__] is [_recording_isinstance] is never a
    candidate, under whatever name it is bound; and when this filter leaves
    no candidate the selector raises [<owner> has no public callables.]. *)
Theorem C10_recording_isinstance_excluded owner s members s1 public s2 :
  getmembers owner inspect_member s = (Ok members, s1) →
  public_members members s1 = (Ok public, s2) →
  (∀ v, v ∈ public ↔
        ∃ name, (name, v) ∈ py_attrs owner
                ∧ is_callable_member (name, v)
                ∧ ¬ underscore_first name
                ∧ __name__ v ≠ "_recording_isinstance")
  ∧ (∀ v, __name__ v = "_recording_isinstance" → v ∉ public)
  ∧ (public = [] →
     ∀ objs s0, choice objs s0 = (Ok owner, s) →
       _random_public_method objs s0 = (Raise (no_public_callables owner), s)).
Proof.
  intros Hm Hp.
  destruct (public_of_owner _ _ _ _ _ _ Hm Hp) as (Hpub & -> & ->).
  assert (∀ v, v ∈ public ↔
        ∃ name, (name, v) ∈ py_attrs owner
                ∧ is_callable_member (name, v)
                ∧ ¬ underscore_first name
                ∧ __name__ v ≠ "_recording_isinstance") as Hiff.
  { intros v. rewrite Hpub, list_elem_of_fmap. split.
    - intros ([name v'] & -> & Hin). apply list_elem_of_filter in Hin.
      destruct Hin as [[Hc [Hu Hn]] Hin]. exists name. simpl in *. done.
    - intros (name & Hin & Hc & Hu & Hn). exists (name, v).
      split; [done|]. apply list_elem_of_filter. done. }
  split; [exact Hiff|]. split.
  - intros v Hname Hv. apply Hiff in Hv as (name & _ & _ & _ & Hn). done.
  - intros Hnil objs s0 Hchoice.
    pose proof Hm as Hm'. apply getmembers_ok in Hm' as [-> _].
    rewrite (selector_after_choice _ _ _ _ _ Hchoice Hm Hp). by rewrite Hnil.
Qed.

(** ** One step *)

Lemma generate_sequence_split cfg tcs ftcs objs s :
  _generate_sequence cfg tcs ftcs objs s =
  bind (candidate cfg tcs objs) (classify tcs ftcs) s.
Proof.
  unfold _generate_sequence, candidate, classify, bind.
  destruct (_random_public_method objs s) as [[method|e] s1]; [|done].
  destruct (_random_test_cases cfg tcs s1) as [[tests|e] s2]; [|done].
  destruct (_random_values tcs method s2) as [[values|e] s3]; [|done].
  by destruct (_extend method tests values s3) as [[new|e] s4].
Qed.

Lemma call_execute_run new s :
  call_execute new s =
    ((execute new (st_world s)).1,
     {| st_world := (execute new (st_world s)).2;
        st_trace := st_trace s ++ [ExecuteCalled new] |}).
Proof.
  unfold call_execute, bind, emit, call. simpl.
  by destruct (execute new (st_world s)).
Qed.

Lemma classify_duplicate tcs ftcs new s :
  new ∈ tcs ∨ new ∈ ftcs → classify tcs ftcs new s = (Ok (tcs, ftcs), s).
Proof.
  intros Hdup. unfold classify.
  destruct (bool_decide (new ∈ tcs)) eqn:E1; [done|].
  destruct (bool_decide (new ∈ ftcs)) eqn:E2; [done|].
  apply bool_decide_eq_false in E1, E2. tauto.
Qed.

Lemma classify_unique tcs ftcs new s :
  new ∉ tcs → new ∉ ftcs →
  classify tcs ftcs new s =
    match (execute new (st_world s)).1 with
    | Ok true =>
        (Ok (tcs, ftcs ++ [new]),
         {| st_world := (execute new (st_world s)).2;
            st_trace := st_trace s ++ [ExecuteCalled new] |})
    | Ok false =>
        (Ok (tcs ++ [new], ftcs),
         {| st_world := (execute new (st_world s)).2;
            st_trace := st_trace s ++ [ExecuteCalled new] |})
    | Raise e =>
        (Raise e,
         {| st_world := (execute new (st_world s)).2;
            st_trace := st_trace s ++ [ExecuteCalled new] |})
    end.
Proof.
  intros H1 H2. unfold classify.
  rewrite (bool_decide_eq_false_2 _ H1), (bool_decide_eq_false_2 _ H2). simpl.
  unfold bind. rewrite call_execute_run.
  by destruct (execute new (st_world s)).1 as [[]|].
Qed.

(** What a step that returns has done. *)
Lemma generate_sequence_ok_inv cfg tcs ftcs objs s passing failing s' :
  _generate_sequence cfg tcs ftcs objs s = (Ok (passing, failing), s') →
  ∃ new s1,
    candidate cfg tcs objs s = (Ok new, s1)
    ∧ (((new ∈ tcs ∨ new ∈ ftcs)
        ∧ passing = tcs ∧ failing = ftcs ∧ s' = s1)
       ∨ ((new ∉ tcs) ∧ (new ∉ ftcs)
          ∧ s' = {| st_world := (execute new (st_world s1)).2;
                    st_trace := st_trace s1 ++ [ExecuteCalled new] |}
          ∧ (((execute new (st_world s1)).1 = Ok true
              ∧ passing = tcs ∧ failing = ftcs ++ [new])
             ∨ ((execute new (st_world s1)).1 = Ok false
                ∧ passing = tcs ++ [new] ∧ failing = ftcs)))).
Proof.
  rewrite generate_sequence_split. intros Hrun.
  apply bind_ok_inv in Hrun as (new & s1 & Hcand & Hcl).
  exists new, s1. split; [done|].
  destruct (decide (new ∈ tcs ∨ new ∈ ftcs)) as [Hdup|Hnew].
  - rewrite classify_duplicate in Hcl by done. injection Hcl as <- <- <-.
    by left.
  - right.
    assert (new ∉ tcs) as H1 by (intros ?; apply Hnew; by left).
    assert (new ∉ ftcs) as H2 by (intros ?; apply Hnew; by right).
    rewrite classify_unique in Hcl by done.
    destruct (execute new (st_world s1)).1 as [[]|]; [| |discriminate];
      injection Hcl as <- <- <-; repeat split; auto.
Qed.

(** ** The loop body *)

Lemma loop_body_returned cfg objs l s passing failing s' :
  _generate_sequence cfg (test_cases l) (failing_test_cases l) objs s
    = (Ok (passing, failing), s') →
  loop_body cfg objs l s = (Ok (next_locals l passing failing), s').
Proof. intros Hrun. unfold loop_body. by rewrite Hrun. Qed.

Lemma loop_body_caught cfg objs l s args s' :
  _generate_sequence cfg (test_cases l) (failing_test_cases l) objs s
    = (Raise (GenerationException args), s') →
  loop_body cfg objs l s =
    (Ok (next_locals l (test_cases l) (failing_test_cases l)),
     {| st_world := st_world s';
        st_trace := st_trace s'
                    ++ [Logged DEBUG
                          (LogGenerateFailed (GenerationException args))] |}).
Proof. intros Hrun. unfold loop_body. by rewrite Hrun. Qed.

Lemma loop_body_propagated cfg objs l s e s' :
  is_generation_exception e = false →
  _generate_sequence cfg (test_cases l) (failing_test_cases l) objs s
    = (Raise e, s') →
  loop_body cfg objs l s = (Raise e, s').
Proof.
  intros He Hrun. unfold loop_body. rewrite Hrun. by destruct e.
Qed.

(** What an iteration that does not leave the loop has done. *)
Lemma loop_body_ok_inv cfg objs l s l' s' :
  loop_body cfg objs l s = (Ok l', s') →
  (∃ passing failing,
      _generate_sequence cfg (test_cases l) (failing_test_cases l) objs s
        = (Ok (passing, failing), s')
      ∧ l' = next_locals l passing failing)
  ∨ (∃ args s1,
      _generate_sequence cfg (test_cases l) (failing_test_cases l) objs s
        = (Raise (GenerationException args), s1)
      ∧ l' = next_locals l (test_cases l) (failing_test_cases l)).
Proof.
  unfold loop_body.
  destruct (_generate_sequence _ _ _ _ s) as [[[passing failing]|e] s1] eqn:E.
  - intros [= <- <-]. left. eauto.
  - destruct e; try discriminate. intros [= <- <-]. right. eauto.
Qed.

Lemma iterate_body_invariant (P : locals → Prop) cfg objs :
  (∀ l s l' s', P l → loop_body cfg objs l s = (Ok l', s') → P l') →
  ∀ n l s l' s',
    P l → iterate_body n cfg objs l s = (Ok l', s') → P l'.
Proof.
  intros Hstep n. induction n as [|n IH]; intros l s l' s' HP; simpl.
  - by intros [= <- <-].
  - intros Hrun. apply bind_ok_inv in Hrun as (l1 & s1 & Hbody & Hrest).
    eapply IH; [|exact Hrest]. eauto.
Qed.

Lemma iterate_body_counter cfg objs n l s l' s' :
  iterate_body n cfg objs l s = (Ok l', s') →
  execution_counter l' = (execution_counter l + n)%nat.
Proof.
  revert l s. induction n as [|n IH]; intros l s; simpl.
  - intros [= <- <-]. lia.
  - intros Hrun. apply bind_ok_inv in Hrun as (l1 & s1 & Hbody & Hrest).
    rewrite (IH _ _ Hrest).
    apply loop_body_ok_inv in Hbody
      as [(? & ? & _ & ->)|(? & ? & _ & ->)]; simpl; lia.
Qed.

(** ** The loop and the clock *)

Lemma before_deadline_true t start_time time_limit :
  before_deadline t start_time time_limit = true ↔
  t - start_time < time_limit * 1000000.
Proof. unfold before_deadline. apply bool_decide_eq_true. Qed.

Lemma before_deadline_false t start_time time_limit :
  before_deadline t start_time time_limit = false ↔
  time_limit * 1000000 ≤ t - start_time.
Proof. unfold before_deadline. rewrite bool_decide_eq_false. lia. Qed.

(** When the condition holds [n] times and then fails, the loop is [n]
    iterations of its body. *)
Lemma while_loop_deadline clock cfg time_limit start_time objs n :
  ∀ fuel reads l s,
    (∀ i, (i < n)%nat →
          before_deadline (clock (reads + i)%nat) start_time time_limit = true) →
    before_deadline (clock (reads + n)%nat) start_time time_limit = false →
    (n < fuel)%nat →
    while_loop fuel clock reads cfg time_limit start_time objs l s
    = Some (iterate_body n cfg objs l s).
Proof.
  induction n as [|n IH]; intros fuel reads l s Hbefore Hat Hfuel;
    (destruct fuel as [|fuel]; [lia|]); simpl.
  - rewrite Nat.add_0_r in Hat. by rewrite Hat.
  - pose proof (Hbefore O ltac:(lia)) as H0. rewrite Nat.add_0_r in H0.
    rewrite H0. unfold bind.
    destruct (loop_body cfg objs l s) as [[l1|e] s1]; [|done].
    apply IH; [|by rewrite Nat.add_succ_comm|lia].
    intros i Hi. rewrite Nat.add_succ_comm. apply Hbefore. lia.
Qed.

(** While the condition holds the loop does not return its locals. *)
Lemma while_loop_not_early clock cfg time_limit start_time objs :
  ∀ fuel reads l s,
    (∀ i, (i < fuel)%nat →
          before_deadline (clock (reads + i)%nat) start_time time_limit = true) →
    while_loop fuel clock reads cfg time_limit start_time objs l s = None
    ∨ ∃ e s', while_loop fuel clock reads cfg time_limit start_time objs l s
              = Some (Raise e, s').
Proof.
  induction fuel as [|fuel IH]; intros reads l s Hbefore; simpl; [by left|].
  pose proof (Hbefore O ltac:(lia)) as H0. rewrite Nat.add_0_r in H0.
  rewrite H0. destruct (loop_body cfg objs l s) as [[l1|e] s1]; [|eauto].
  apply IH. intros i Hi. rewrite Nat.add_succ_comm. apply Hbefore. lia.
Qed.

(** A loop that returns its locals has met the deadline, after whole
    iterations only. *)
Lemma while_loop_ok_inv clock cfg time_limit start_time objs :
  ∀ fuel reads l s l' s',
    while_loop fuel clock reads cfg time_limit start_time objs l s
    = Some (Ok l', s') →
    ∃ n, (n < fuel)%nat
         ∧ iterate_body n cfg objs l s = (Ok l', s')
         ∧ (∀ i, (i < n)%nat →
              before_deadline (clock (reads + i)%nat) start_time time_limit
              = true)
         ∧ before_deadline (clock (reads + n)%nat) start_time time_limit
           = false.
Proof.
  induction fuel as [|fuel IH]; intros reads l s l' s'; simpl; [done|].
  destruct (before_deadline (clock reads) start_time time_limit) eqn:Hnow.
  - destruct (loop_body cfg objs l s) as [[l1|e] s1] eqn:Hbody; [|done].
    intros (n & Hn & Hit & Hbefore & Hat)%IH.
    exists (S n). split; [lia|]. split.
    { simpl. by rewrite (bind_ok _ _ _ _ _ Hbody). }
    split.
    + intros [|i] Hi; [by rewrite Nat.add_0_r|].
      rewrite <- Nat.add_succ_comm. apply Hbefore. lia.
    + by rewrite <- Nat.add_succ_comm.
  - intros [= <- <-]. exists O. split; [lia|]. split; [done|].
    split; [intros; lia|by rewrite Nat.add_0_r].
Qed.

Lemma deadline_at_before clock time_limit n i :
  deadline_at clock time_limit n → (i < n)%nat →
  before_deadline (clock (1 + i)%nat) (clock O) time_limit = true.
Proof. intros [Hb _] Hi. apply before_deadline_true, Hb, Hi. Qed.

Lemma deadline_at_reached clock time_limit n :
  deadline_at clock time_limit n →
  before_deadline (clock (1 + n)%nat) (clock O) time_limit = false.
Proof. intros [_ Hr]. by apply before_deadline_false. Qed.

(** A run whose clock reaches the deadline at the [n]-th evaluation of the
    loop condition is [run n]. *)
Lemma generate_sequences_run fuel clock cfg time_limit modules s n :
  deadline_at clock time_limit n → (n < fuel)%nat →
  generate_sequences fuel clock cfg time_limit modules s
  = Some (run n cfg time_limit modules s).
Proof.
  intros Hd Hfuel. unfold generate_sequences, run, bind.
  destruct (prologue time_limit modules s) as [[objs|e] s1]; [|done].
  rewrite (while_loop_deadline clock cfg time_limit (clock O) objs n);
    [|intros; by eapply deadline_at_before|by apply deadline_at_reached|done].
  by destruct (iterate_body n cfg objs initial_locals s1) as [[l|e] s2].
Qed.

(** A run that returns pools has made whole iterations from the empty
    pools and has met the deadline. *)
Lemma generate_sequences_ok_inv fuel clock cfg time_limit modules s pools s' :
  generate_sequences fuel clock cfg time_limit modules s = Some (Ok pools, s') →
  ∃ n objs s1 l s2,
    (n < fuel)%nat ∧ deadline_at clock time_limit n
    ∧ prologue time_limit modules s = (Ok objs, s1)
    ∧ iterate_body n cfg objs initial_locals s1 = (Ok l, s2)
    ∧ pools = (test_cases l, failing_test_cases l).
Proof.
  unfold generate_sequences.
  destruct (prologue time_limit modules s) as [[objs|e] s1]; [|done].
  destruct (while_loop fuel clock 1 cfg time_limit (clock O) objs
              initial_locals s1) as [[[l|e] s2]|] eqn:Hloop; [|done|done].
  apply while_loop_ok_inv in Hloop as (n & Hn & Hit & Hbefore & Hat).
  intros [= <- _]. exists n, objs, s1, l, s2.
  split; [done|]. split; [|done].
  split.
  - intros i Hi. by apply before_deadline_true, Hbefore.
  - by apply before_deadline_false.
Qed.

Lemma deadline_at_unique clock time_limit n n' :
  deadline_at clock time_limit n → deadline_at clock time_limit n' → n = n'.
Proof.
  intros [Hb Hr] [Hb' Hr'].
  destruct (lt_eq_lt_dec n n') as [[Hlt| ->]|Hlt]; [|done|].
  - specialize (Hb' n Hlt). lia.
  - specialize (Hb n' Hlt). lia.
Qed.

Lemma epilogue_run l s :
  epilogue l s =
    (Ok (test_cases l, failing_test_cases l),
     {| st_world := st_world s;
        st_trace :=
          st_trace s
          ++ [Logged INFO LogFinish;
              Logged DEBUG (LogPassing (length (test_cases l)));
              Logged DEBUG (LogFailing (length (failing_test_cases l)));
              Logged DEBUG (LogIterations (execution_counter l))] |}).
Proof.
  unfold epilogue, bind, log, emit, ret. simpl. by rewrite <- !app_assoc.
Qed.

(** C5: the loop condition is the only way out of the loop that returns the
    pools, and it reads nothing but the clock.  Let the discovery return, and
    let the clock first show [now - start >= limit] at the [n]-th evaluation
    of the condition (counting from zero).  If [n] iterations in a row from
    the empty pools leave the locals [l], the run returns exactly the passing
    and the failing pool of [l], after the four closing log records, the last
    of which gives the iteration counter, which is [n]; if one of these
    iterations raises an exception the loop does not catch, the run raises
    it and returns no pools.  This holds for every [n], so no iteration count
    stops the loop.  With [n] or fewer evaluations of the condition the run
    has not returned the pools; and whenever a run returns pools, they are
    the pools after [n] whole iterations: the loop is never left between two
    evaluations of its condition with a result. *)
Theorem C5_deadline_only fuel clock cfg time_limit modules s objs s1 n :
  deadline_at clock time_limit n →
  prologue time_limit modules s = (Ok objs, s1) →
  ((n < fuel)%nat →
   (∀ l s2,
      iterate_body n cfg objs initial_locals s1 = (Ok l, s2) →
      execution_counter l = n
      ∧ generate_sequences fuel clock cfg time_limit modules s
        = Some (Ok (test_cases l, failing_test_cases l),
                {| st_world := st_world s2;
                   st_trace :=
                     st_trace s2
                     ++ [Logged INFO LogFinish;
                         Logged DEBUG (LogPassing (length (test_cases l)));
                         Logged DEBUG
                           (LogFailing (length (failing_test_cases l)));
                         Logged DEBUG (LogIterations n)] |}))
   ∧ (∀ e s2,
        iterate_body n cfg objs initial_locals s1 = (Raise e, s2) →
        generate_sequences fuel clock cfg time_limit modules s
        = Some (Raise e, s2)))
  ∧ ((fuel ≤ n)%nat →
     ∀ pools s',
       generate_sequences fuel clock cfg time_limit modules s
       ≠ Some (Ok pools, s'))
  ∧ (∀ pools s',
       generate_sequences fuel clock cfg time_limit modules s
       = Some (Ok pools, s') →
       ∃ l s2,
         (n < fuel)%nat
         ∧ iterate_body n cfg objs initial_locals s1 = (Ok l, s2)
         ∧ pools = (test_cases l, failing_test_cases l)).
Proof.
  intros Hd Hpro. split; [|split].
  - intros Hfuel.
    rewrite (generate_sequences_run fuel clock cfg time_limit modules s n)
      by done.
    unfold run. rewrite (bind_ok _ _ _ _ _ Hpro). split.
    + intros l s2 Hit. rewrite (bind_ok _ _ _ _ _ Hit), epilogue_run.
      apply iterate_body_counter in Hit. simpl in Hit. by rewrite Hit.
    + intros e s2 Hit. by rewrite (bind_raise _ _ _ _ _ Hit).
  - intros Hfuel pools s'. unfold generate_sequences. rewrite Hpro.
    destruct (while_loop_not_early clock cfg time_limit (clock O) objs
                fuel 1 initial_locals s1) as [Hnone|(e & s2 & Hraise)].
    + intros i Hi. eapply deadline_at_before; [done|lia].
    + by rewrite Hnone.
    + by rewrite Hraise.
  - intros pools s' Hrun.
    apply generate_sequences_ok_inv in Hrun
      as (n' & objs' & s1' & l & s2 & Hn & Hd' & Hpro' & Hit & ->).
    rewrite Hpro in Hpro'. injection Hpro' as <- <-.
    rewrite (deadline_at_unique _ _ _ _ Hd Hd'). by exists l, s2.
Qed.

(** C4, amended: two runs that start from the same state of the random
    generator and of the collaborators, with the same configuration, time
    limit and targets, and whose clocks reach the deadline at the same
    evaluation of the loop condition, return the same pools and leave the
    same trace, iteration counter included.  (The number of iterations is
    fixed by the clock, not by the seed; the loop does not seed the
    generator.) *)
Theorem C4_same_iterations_same_outcome
    fuel1 fuel2 clock1 clock2 cfg time_limit modules s n :
  deadline_at clock1 time_limit n → deadline_at clock2 time_limit n →
  (n < fuel1)%nat → (n < fuel2)%nat →
  generate_sequences fuel1 clock1 cfg time_limit modules s
  = generate_sequences fuel2 clock2 cfg time_limit modules s
  ∧ ∃ outcome,
      generate_sequences fuel1 clock1 cfg time_limit modules s = Some outcome.
Proof.
  intros Hd1 Hd2 Hf1 Hf2.
  rewrite (generate_sequences_run fuel1 clock1) with (n := n) by done.
  rewrite (generate_sequences_run fuel2 clock2) with (n := n) by done.
  split; [reflexivity|]. by eexists.
Qed.

(** C9: when [_generate_sequence] raises a [GenerationException], the loop
    body catches it: the exception is written to the debug log, the
    iteration counter is one more, both pools are what they were, and the
    loop goes on to evaluate its condition again. *)
Theorem C9_generation_exception_caught cfg objs l s args s' :
  _generate_sequence cfg (test_cases l) (failing_test_cases l) objs s
    = (Raise (GenerationException args), s') →
  let l' := {| test_cases := test_cases l;
               failing_test_cases := failing_test_cases l;
               execution_counter := S (execution_counter l) |} in
  let logged := {| st_world := st_world s';
                   st_trace :=
                     st_trace s'
                     ++ [Logged DEBUG
                           (LogGenerateFailed (GenerationException args))] |} in
  loop_body cfg objs l s = (Ok l', logged)
  ∧ ∀ fuel clock reads time_limit start_time,
      before_deadline (clock reads) start_time time_limit = true →
      while_loop (S fuel) clock reads cfg time_limit start_time objs l s
      = while_loop fuel clock (S reads) cfg time_limit start_time objs
                   l' logged.
Proof.
  intros Hraise l' logged.
  pose proof (loop_body_caught _ _ _ _ _ _ Hraise) as Hbody.
  split; [exact Hbody|].
  intros fuel clock reads time_limit start_time Hbefore. simpl.
  rewrite Hbefore, Hbody. reflexivity.
Qed.

(** ** What building a candidate adds to the trace *)

Section CandidateTrace.
Variable P : event → Prop.
Hypothesis P_log : ∀ l r, P (Logged l r).

Lemma adds_inspect_member member : adds P (inspect_member member).
Proof.
  unfold inspect_member. destruct (py_kind member); try apply adds_ret.
  apply adds_bind; [by apply adds_log|intros; apply adds_raise].
Qed.

Lemma adds_getmembers_loop attrs : adds P (getmembers_loop attrs inspect_member).
Proof.
  induction attrs as [|[key v] attrs IH]; simpl; [apply adds_ret|].
  apply adds_bind; [apply adds_inspect_member|intros keep].
  apply adds_bind; [exact IH|intros; apply adds_ret].
Qed.

Lemma adds_getmembers owner : adds P (getmembers owner inspect_member).
Proof.
  unfold getmembers.
  destruct (py_kind owner); try apply adds_getmembers_loop. apply adds_raise.
Qed.

Lemma adds_public_members members : adds P (public_members members).
Proof.
  induction members as [|m members IH]; simpl; [apply adds_ret|].
  apply adds_bind.
  { unfold first_char. destruct m.1; [apply adds_raise|apply adds_ret]. }
  intros c. apply adds_bind; [exact IH|intros; apply adds_ret].
Qed.

Lemma adds_random_public_method objs : adds P (_random_public_method objs).
Proof.
  unfold _random_public_method.
  apply adds_bind; [apply adds_choice|intros owner].
  apply adds_bind; [apply adds_getmembers|intros members].
  apply adds_bind; [apply adds_public_members|intros public].
  destruct public; [apply adds_raise|apply adds_choice].
Qed.

Lemma adds_random_test_cases cfg pool : adds P (_random_test_cases cfg pool).
Proof.
  unfold _random_test_cases.
  apply adds_bind; [apply adds_randint|intros k].
  apply adds_bind; [apply adds_sample|intros new].
  apply adds_bind; [by apply adds_log|intros; apply adds_ret].
Qed.

Lemma adds_extend callable_ tests values : adds P (_extend callable_ tests values).
Proof.
  unfold _extend.
  apply adds_bind; [apply adds_call|intros stmt].
  apply adds_bind; [by apply adds_log|intros; apply adds_ret].
Qed.

Hypothesis P_init_value : ∀ type_ sequences, P (InitValueCalled type_ sequences).

Lemma adds_random_values_loop pool callable_ parameters values :
  adds P (_random_values_loop pool callable_ parameters values).
Proof.
  revert values. induction parameters as [|[name param] parameters IH];
    intros values; simpl; [apply adds_ret|].
  apply adds_bind.
  { apply adds_bind; [by apply adds_emit|intros; apply adds_call]. }
  intros v. apply adds_bind; [by apply adds_log|intros; apply IH].
Qed.

Lemma adds_random_values pool callable_ : adds P (_random_values pool callable_).
Proof.
  unfold _random_values. apply adds_bind.
  - unfold signature. destruct (py_signature callable_);
      [apply adds_ret|apply adds_raise].
  - intros sig. apply adds_random_values_loop.
Qed.

Lemma adds_candidate cfg pool objs : adds P (candidate cfg pool objs).
Proof.
  unfold candidate.
  apply adds_bind; [apply adds_random_public_method|intros method].
  apply adds_bind; [apply adds_random_test_cases|intros tests].
  apply adds_bind; [apply adds_random_values|intros values].
  apply adds_extend.
Qed.

End CandidateTrace.

Lemma executed_app tr1 tr2 : executed (tr1 ++ tr2) = executed tr1 ++ executed tr2.
Proof. apply omap_app. Qed.

Lemma executed_none events : Forall not_execute events → executed events = [].
Proof.
  induction 1 as [|e events He _ IH]; [done|].
  destruct e; simpl in *; done.
Qed.

Lemma init_value_calls_app tr1 tr2 :
  init_value_calls (tr1 ++ tr2) = init_value_calls tr1 ++ init_value_calls tr2.
Proof. apply omap_app. Qed.

Lemma init_value_calls_none events :
  Forall is_log events → init_value_calls events = [].
Proof.
  induction 1 as [|e events He _ IH]; [done|].
  destruct e; simpl in *; done.
Qed.

(** Building a candidate does not call the executor. *)
Lemma candidate_executes_nothing cfg pool objs s r s' :
  candidate cfg pool objs s = (r, s') →
  executed (st_trace s') = executed (st_trace s).
Proof.
  intros Hrun.
  destruct (adds_candidate not_execute ltac:(done) ltac:(done) _ _ _ _ _ _ Hrun)
    as (events & -> & Hev).
  by rewrite executed_app, (executed_none _ Hev), app_nil_r.
Qed.

(** ** The pools *)

Lemma step_keeps_nodup cfg tcs ftcs objs s passing failing s' :
  NoDup (tcs ++ ftcs) →
  _generate_sequence cfg tcs ftcs objs s = (Ok (passing, failing), s') →
  NoDup (passing ++ failing).
Proof.
  intros Hnd Hrun.
  apply generate_sequence_ok_inv in Hrun
    as (new & s1 & _ & [(_ & -> & -> & _)|(H1 & H2 & _ & Hv)]); [done|].
  apply NoDup_app in Hnd as (Hp & Hdisj & Hf).
  destruct Hv as [(_ & -> & ->)|(_ & -> & ->)].
  - apply NoDup_app. split; [done|]. split.
    + intros t Ht. rewrite elem_of_app, list_elem_of_singleton.
      intros [?| ->]; [by eapply Hdisj|done].
    + apply NoDup_app. split; [done|]. split; [|apply NoDup_singleton].
      intros t Ht. rewrite list_elem_of_singleton. by intros ->.
  - rewrite <- app_assoc. apply NoDup_app. split; [done|]. split.
    + intros t Ht. rewrite elem_of_app, list_elem_of_singleton.
      intros [-> |?]; [done|by eapply Hdisj].
    + simpl. apply NoDup_cons. done.
Qed.

Lemma pools_nodup cfg objs n s l s' :
  iterate_body n cfg objs initial_locals s = (Ok l, s') →
  NoDup (test_cases l ++ failing_test_cases l).
Proof.
  apply (iterate_body_invariant
           (λ l, NoDup (test_cases l ++ failing_test_cases l))).
  - intros l0 s0 l1 s1 Hnd Hbody.
    apply loop_body_ok_inv in Hbody
      as [(p & f & Hrun & ->)|(? & ? & _ & ->)]; simpl; [|done].
    by eapply step_keeps_nodup.
  - simpl. apply NoDup_nil_2.
Qed.

(** C6: after any number of iterations the passing and the failing pool
    together hold no test case twice (by [TestCase.__eq__]).  When the
    candidate of the next iteration equals a test case of either pool, the
    step returns without an exception, leaves both pools as they are, and
    has not called the executor; the loop body only counts the iteration.
    The pools that [generate_sequences] returns hold no test case twice. *)
Theorem C6_no_duplicates cfg objs n s l s' :
  iterate_body n cfg objs initial_locals s = (Ok l, s') →
  NoDup (test_cases l ++ failing_test_cases l)
  ∧ (∀ new s1,
       candidate cfg (test_cases l) objs s' = (Ok new, s1) →
       new ∈ test_cases l ∨ new ∈ failing_test_cases l →
       _generate_sequence cfg (test_cases l) (failing_test_cases l) objs s'
       = (Ok (test_cases l, failing_test_cases l), s1)
       ∧ executed (st_trace s1) = executed (st_trace s')
       ∧ loop_body cfg objs l s'
         = (Ok {| test_cases := test_cases l;
                  failing_test_cases := failing_test_cases l;
                  execution_counter := S (execution_counter l) |}, s1))
  ∧ (∀ fuel clock time_limit modules s0 passing failing s1,
       generate_sequences fuel clock cfg time_limit modules s0
       = Some (Ok (passing, failing), s1) →
       NoDup (passing ++ failing)).
Proof.
  intros Hrun. split; [by eapply pools_nodup|]. split; last first.
  { intros fuel clock time_limit modules s0 passing failing s1 Hgen.
    apply generate_sequences_ok_inv in Hgen
      as (k & objs' & s2 & l' & s3 & _ & _ & _ & Hit & [= -> ->]).
    by eapply pools_nodup. }
  intros new s1 Hcand Hdup.
  assert (_generate_sequence cfg (test_cases l) (failing_test_cases l) objs s'
          = (Ok (test_cases l, failing_test_cases l), s1)) as Hstep.
  { rewrite generate_sequence_split, (bind_ok _ _ _ _ _ Hcand).
    by apply classify_duplicate. }
  split; [exact Hstep|]. split.
  - by eapply candidate_executes_nothing.
  - by rewrite (loop_body_returned _ _ _ _ _ _ _ Hstep).
Qed.

(** C7: a candidate that is in neither pool is handed to the executor once,
    and when the executor returns a verdict the step appends the candidate to
    the failing pool if the verdict is a violation and to the passing pool
    otherwise, leaving the other pool as it is.  After any number of
    iterations no test case is in both pools, and with an executor that
    reports a violation for every test case the passing pool is empty; both
    also hold of the pools that [generate_sequences] returns. *)
Theorem C7_classification cfg objs n s l s' :
  iterate_body n cfg objs initial_locals s = (Ok l, s') →
  (∀ t, t ∈ test_cases l → t ∉ failing_test_cases l)
  ∧ (∀ new s1 violated,
       candidate cfg (test_cases l) objs s' = (Ok new, s1) →
       new ∉ test_cases l → new ∉ failing_test_cases l →
       (execute new (st_world s1)).1 = Ok violated →
       ∃ s2,
         _generate_sequence cfg (test_cases l) (failing_test_cases l) objs s'
         = (Ok (if violated
                then (test_cases l, failing_test_cases l ++ [new])
                else (test_cases l ++ [new], failing_test_cases l)), s2)
         ∧ executed (st_trace s2) = executed (st_trace s') ++ [new])
  ∧ ((∀ t w, (execute t w).1 = Ok true) → test_cases l = [])
  ∧ (∀ fuel clock time_limit modules s0 passing failing s1,
       generate_sequences fuel clock cfg time_limit modules s0
       = Some (Ok (passing, failing), s1) →
       (∀ t, t ∈ passing → t ∉ failing)
       ∧ ((∀ t w, (execute t w).1 = Ok true) → passing = [])).
Proof.
  assert (∀ k objs' s2 l' s3,
            iterate_body k cfg objs' initial_locals s2 = (Ok l', s3) →
            (∀ t w, (execute t w).1 = Ok true) → test_cases l' = [])
    as Hviolation.
  { intros k objs' s2 l' s3 Hit Hall. revert Hit.
    apply (iterate_body_invariant (λ l, test_cases l = [])); [|done].
    intros l0 s0 l1 s1 Hnil Hbody.
    apply loop_body_ok_inv in Hbody
      as [(p & f & Hstep & ->)|(? & ? & _ & ->)]; simpl; [|done].
    apply generate_sequence_ok_inv in Hstep
      as (new & s4 & _ & [(_ & -> & _)|(_ & _ & _ & Hv)]); [done|].
    destruct Hv as [(_ & -> & _)|(Hfalse & _)]; [done|].
    rewrite Hall in Hfalse. discriminate. }
  intros Hrun. split; [|split; [|split]].
  - pose proof (pools_nodup _ _ _ _ _ _ Hrun) as Hnd.
    apply NoDup_app in Hnd as (_ & Hdisj & _). exact Hdisj.
  - intros new s1 violated Hcand H1 H2 Hv. eexists.
    rewrite generate_sequence_split, (bind_ok _ _ _ _ _ Hcand).
    rewrite classify_unique, Hv by done.
    split; [by destruct violated|].
    assert (executed (st_trace s1 ++ [ExecuteCalled new])
            = executed (st_trace s') ++ [new]) as Hex.
    { rewrite executed_app.
      by rewrite (candidate_executes_nothing _ _ _ _ _ _ Hcand). }
    by destruct violated.
  - by eapply Hviolation.
  - intros fuel clock time_limit modules s0 passing failing s1 Hgen.
    apply generate_sequences_ok_inv in Hgen
      as (k & objs' & s2 & l' & s3 & _ & _ & _ & Hit & [= -> ->]).
    split; [|by eapply Hviolation].
    pose proof (pools_nodup _ _ _ _ _ _ Hit) as Hnd.
    apply NoDup_app in Hnd as (_ & Hdisj & _). exact Hdisj.
Qed.

(** ** Discovery *)

Lemma find_objects_loop_raises pre m post e :
  (∀ m', m' ∈ pre →
     ∀ w, ∃ members w', get_members_from_module m' w = (Ok members, w')) →
  (∀ w, ∃ w', get_members_from_module m w = (Raise e, w')) →
  ∀ acc s, ∃ s',
    _find_objects_loop (pre ++ m :: post) acc s = (Raise e, s')
    ∧ st_trace s' = st_trace s.
Proof.
  intros Hpre Hm. induction pre as [|m' pre IH]; intros acc s; simpl.
  - destruct (Hm (st_world s)) as [w' Hw]. eexists.
    unfold bind, call. rewrite Hw. done.
  - destruct (Hpre m' ltac:(left) (st_world s)) as (members & w' & Hw).
    unfold bind at 1, call. rewrite Hw.
    edestruct IH as (s' & Hrun & Htr).
    { intros m'' Hin. apply Hpre. by right. }
    eexists. split; [exact Hrun|]. by rewrite Htr.
Qed.

(** C3, amended: when a target cannot be enumerated (every target before it
    can), the exception that [get_members_from_module] raises for it leaves
    [generate_sequences] as it is, whatever its class, the clock and the time
    limit: the run returns no pools, performs no iteration, and logs nothing
    about the failure. *)
Theorem C3_discovery_failure_aborts
    fuel clock cfg time_limit pre m post e s :
  (∀ m', m' ∈ pre →
     ∀ w, ∃ members w', get_members_from_module m' w = (Ok members, w')) →
  (∀ w, ∃ w', get_members_from_module m w = (Raise e, w')) →
  ∃ s',
    generate_sequences fuel clock cfg time_limit (pre ++ m :: post) s
    = Some (Raise e, s')
    ∧ st_trace s' =
        st_trace s
        ++ [Logged INFO LogStart; Logged DEBUG (LogTimeLimit time_limit);
            Logged DEBUG (LogModules (pre ++ m :: post))].
Proof.
  intros Hpre Hm. unfold generate_sequences, prologue, _find_objects_under_test.
  unfold bind at 1 2 3, log, emit. simpl.
  edestruct (find_objects_loop_raises pre m post e Hpre Hm)
    as (s' & Hrun & Htr).
  rewrite Hrun. eexists. split; [reflexivity|].
  rewrite Htr. simpl. by rewrite <- !app_assoc.
Qed.

(** ** Argument synthesis *)

Lemma call_init_value_run type_ sequences s :
  call_init_value type_ sequences s =
    ((init_value type_ sequences (st_world s)).1,
     {| st_world := (init_value type_ sequences (st_world s)).2;
        st_trace := st_trace s ++ [InitValueCalled type_ sequences] |}).
Proof.
  unfold call_init_value, bind, emit, call. simpl.
  by destruct (init_value type_ sequences (st_world s)).
Qed.

Lemma logs_keep_init_value_calls {A} (m : M A) s r s' :
  adds is_log m → m s = (r, s') →
  init_value_calls (st_trace s') = init_value_calls (st_trace s).
Proof.
  intros Hm Hrun. destruct (Hm _ _ _ Hrun) as (events & -> & Hev).
  by rewrite init_value_calls_app, (init_value_calls_none _ Hev), app_nil_r.
Qed.

Lemma random_values_loop_calls pool callable_ parameters :
  ∀ values s r s',
    _random_values_loop pool callable_ parameters values s = (Ok r, s') →
    init_value_calls (st_trace s')
    = init_value_calls (st_trace s)
      ++ ((λ kp, (annotation kp.2, pool)) <$> parameters)
    ∧ (λ v, (v.1.1, v.1.2)) <$> r
      = ((λ v, (v.1.1, v.1.2)) <$> values) ++ parameters.
Proof.
  induction parameters as [|[name param] parameters IH];
    intros values s r s'; simpl.
  - intros [= <- <-]. by rewrite !app_nil_r.
  - intros Hrun. apply bind_ok_inv in Hrun as (v & s1 & Hv & Hrun).
    rewrite call_init_value_run in Hv. injection Hv as Hv <-.
    apply bind_ok_inv in Hrun as ([] & s2 & Hlog & Hrun).
    injection Hlog as <-. apply IH in Hrun as [Hcalls Hvalues].
    split.
    + rewrite Hcalls. simpl. rewrite !init_value_calls_app. simpl.
      rewrite app_nil_r, <- app_assoc. done.
    + rewrite Hvalues, fmap_app, <- app_assoc. done.
Qed.

(** C1, amended: in every iteration that builds a candidate, the value
    synthesiser [init_value] is called once per entry of the selected
    callable's signature whose name is not [self], in the order of the
    signature, and every one of these calls is passed the parameter's
    annotation and the whole passing pool as it stands when the iteration
    begins; no other call of the synthesiser is made, neither while the
    candidate is built nor in the rest of the iteration, whether the
    candidate is a duplicate, the executor returns a verdict or the executor
    raises. *)
Theorem C1_synthesiser_calls cfg pool objs s new s1 :
  candidate cfg pool objs s = (Ok new, s1) →
  (∃ method s0 sig,
     _random_public_method objs s = (Ok method, s0)
     ∧ py_signature method = Some sig
     ∧ init_value_calls (st_trace s1)
       = init_value_calls (st_trace s)
         ++ ((λ kp, (annotation kp.2, pool))
               <$> filter (λ kv, kv.1 ≠ "self") sig))
  ∧ ∀ failing r s',
      _generate_sequence cfg pool failing objs s = (r, s') →
      init_value_calls (st_trace s') = init_value_calls (st_trace s1).
Proof.
  intros Hcand. split.
  - unfold candidate in Hcand.
    apply bind_ok_inv in Hcand as (method & s0 & Hmethod & Hcand).
    apply bind_ok_inv in Hcand as (tests & s2 & Htests & Hcand).
    apply bind_ok_inv in Hcand as (values & s3 & Hvalues & Hextend).
    unfold _random_values in Hvalues.
    apply bind_ok_inv in Hvalues as (sig & s2' & Hsig & Hloop).
    unfold signature in Hsig.
    destruct (py_signature method) as [sig'|] eqn:Esig; [|discriminate].
    injection Hsig as -> <-.
    exists method, s0, sig. split; [done|]. split; [done|].
    apply random_values_loop_calls in Hloop as [Hcalls _].
    rewrite (logs_keep_init_value_calls _ _ _ _
               (adds_extend is_log ltac:(done) _ _ _) Hextend).
    rewrite Hcalls.
    rewrite (logs_keep_init_value_calls _ _ _ _
               (adds_random_test_cases is_log ltac:(done) _ _) Htests).
    by rewrite (logs_keep_init_value_calls _ _ _ _
               (adds_random_public_method is_log ltac:(done) _) Hmethod).
  - intros failing r s'.
    rewrite generate_sequence_split, (bind_ok _ _ _ _ _ Hcand).
    destruct (decide (new ∈ pool ∨ new ∈ failing)) as [Hdup|Hnew].
    + rewrite classify_duplicate by done. by intros [= _ <-].
    + rewrite classify_unique by tauto.
      destruct (execute new (st_world s1)).1 as [[]|e]; intros [= _ <-];
        simpl; rewrite init_value_calls_app; simpl; by rewrite app_nil_r.
Qed.

End Properties.

(** * Concrete runs *)

Section Runs.
Import Toy.

Lemma seconds_deadline : deadline_at seconds 4 3.
Proof. split; [intros i Hi|]; unfold seconds; lia. Qed.

Lemma brisk_deadline : deadline_at brisk 4 3.
Proof. split; [intros i Hi|]; unfold brisk; lia. Qed.

Lemma slow_deadline : deadline_at slow 4 1.
Proof. split; [intros i Hi|]; unfold slow; lia. Qed.

Ltac evaluate := vm_compute; reflexivity.

(** Every sample size from zero to the bound is drawn for some state of the
    generator, on a pool that [random.sample] handles without its set of
    selected places. *)
Lemma every_sample_size_is_drawn cfg (pool : list test_case) (k : nat) :
  0 ≤ max_sequences_combined cfg →
  (length (selectables cfg pool) ≤ 21)%nat →
  Z.of_nat k ≤ upper_bound cfg (selectables cfg pool) →
  ∃ sampled s',
    _random_test_cases cfg pool (start [k]) = (Ok sampled, s')
    ∧ length sampled = k.
Proof.
  intros Hcap Hsmall Hk.
  destruct (random_test_cases_after_size (H := toy) cfg pool (start [k]) Hcap)
    as (Hsize & Hbound & Heq).
  rewrite Heq. clear Heq.
  match goal with |- context [bind _ _ ?st] => set (s1 := st) end.
  destruct (sample_outcome (H := toy) (selectables cfg pool)
              (Z.of_nat (randbelow
                 (Z.to_nat (upper_bound cfg (selectables cfg pool) + 1))
                 (st_world (start [k]))).1) s1 ltac:(lia))
    as [(l & s2 & Hrun)|[Hlarge _]].
  - rewrite (bind_ok _ _ _ _ _ Hrun). eexists _, _. split; [reflexivity|].
    apply (sample_ok_inv (H := toy)) in Hrun as (Hlen & _).
    apply Nat2Z.inj in Hlen. rewrite Hlen. simpl. apply Nat.mod_small. lia.
  - unfold setsize in Hlarge. case_decide; lia.
Qed.



(** The selector on a catalog of one module. *)
Lemma C8_witness :
  [module_a] ≠ []
  ∧ ∃ owner s1,
      choice [module_a] (start [0; 1]%nat) = (Ok owner, s1)
      ∧ [module_a] !! (randbelow 1 (st_world (start [0; 1]%nat))).1
        = Some owner.
Proof.
  assert ([module_a] ≠ []) as Hne by done.
  split; [exact Hne|].
  destruct (C8_operation_selector (H := toy) [module_a] (start [0; 1]%nat) Hne)
    as (owner & s1 & Hlook & Hchoice & _).
  by exists owner, s1.
Defined.

(** A module whose only member is the recorder under a public name. *)
Lemma C10_witness :
  getmembers module_b inspect_member (start [0]%nat)
  = (Ok [("isinstance", recorder)], start [0]%nat)
  ∧ public_members [("isinstance", recorder)] (start [0]%nat)
    = (Ok [], start [0]%nat)
  ∧ (recorder ∉ ([] : list pyobject))
  ∧ _random_public_method [module_b] (start [5; 0]%nat)
    = (Raise (GenerationException "module_b has no public callables."),
       start [0]%nat).
Proof.
  assert (getmembers module_b inspect_member (start [0]%nat)
          = (Ok [("isinstance", recorder)], start [0]%nat)) as Hm by evaluate.
  assert (public_members [("isinstance", recorder)] (start [0]%nat)
          = (Ok [], start [0]%nat)) as Hp by evaluate.
  assert (choice [module_b] (start [5; 0]%nat) = (Ok module_b, start [0]%nat))
    as Hc by evaluate.
  split; [exact Hm|]. split; [exact Hp|].
  destruct (C10_recording_isinstance_excluded (H := toy) module_b
              (start [0]%nat) [("isinstance", recorder)] (start [0]%nat) []
              (start [0]%nat) Hm Hp)
    as (_ & Hrec & Hnone).
  split; [apply Hrec; evaluate|].
  exact (Hnone eq_refl [module_b] (start [5; 0]%nat) Hc).
Defined.

(** A run of three iterations under the one-second clock. *)
Lemma C5_witness :
  deadline_at seconds 4 3
  ∧ prologue 4 [module_a] (start tape_pass_fail)
    = (Ok discovered_a, after_prologue_a)
  ∧ iterate_body 3 unbounded discovered_a initial_locals after_prologue_a
    = three_timed
  ∧ ∃ s',
      generate_sequences 10 seconds unbounded 4 [module_a]
        (start tape_pass_fail)
      = Some (Ok ([t1], [[ToyCall "fail" []]]), s')
      ∧ last (st_trace s') = Some (Logged DEBUG (LogIterations 3)).
Proof.
  assert (prologue 4 [module_a] (start tape_pass_fail)
          = (Ok discovered_a, after_prologue_a)) as Hpro by evaluate.
  assert (iterate_body 3 unbounded discovered_a initial_locals
            after_prologue_a = three_timed) as Hit by evaluate.
  split; [exact seconds_deadline|]. split; [exact Hpro|].
  split; [exact Hit|]. unfold three_timed in Hit.
  destruct (C5_deadline_only (H := toy) 10 seconds unbounded 4 [module_a]
              (start tape_pass_fail) discovered_a after_prologue_a 3
              seconds_deadline Hpro) as (Hreturn & _ & _).
  destruct (Hreturn ltac:(lia)) as [Hok _].
  destruct (Hok _ _ Hit) as [_ Hrun].
  eexists. split; [exact Hrun|reflexivity].
Defined.

(** Two clocks that allow three iterations each. *)
Lemma C4_witness :
  deadline_at seconds 4 3 ∧ deadline_at brisk 4 3
  ∧ (3 < 10)%nat ∧ (3 < 7)%nat
  ∧ generate_sequences 10 seconds unbounded 4 [module_a]
      (start tape_pass_fail)
    = generate_sequences 7 brisk unbounded 4 [module_a]
        (start tape_pass_fail).
Proof.
  assert (3 < 10)%nat as H10 by lia. assert (3 < 7)%nat as H7 by lia.
  split; [exact seconds_deadline|]. split; [exact brisk_deadline|].
  split; [exact H10|]. split; [exact H7|].
  exact (proj1 (C4_same_iterations_same_outcome (H := toy) 10 7 seconds brisk
                  unbounded 4 [module_a] (start tape_pass_fail) 3
                  seconds_deadline brisk_deadline H10 H7)).
Defined.

(** A catalog whose only entry is a function: it has no members. *)
Lemma C9_witness :
  _generate_sequence unbounded (test_cases initial_locals)
    (failing_test_cases initial_locals) [f] (start [0]%nat)
  = (Raise (GenerationException "f has no public callables."), start [])
  ∧ loop_body unbounded [f] initial_locals (start [0]%nat)
    = (Ok {| test_cases := []; failing_test_cases := [];
             execution_counter := 1 |},
       {| st_world := [];
          st_trace :=
            [Logged DEBUG
               (LogGenerateFailed
                  (GenerationException "f has no public callables."))] |}).
Proof.
  assert (_generate_sequence unbounded (test_cases initial_locals)
            (failing_test_cases initial_locals) [f] (start [0]%nat)
          = (Raise (GenerationException "f has no public callables."),
             start [])) as Hraise by evaluate.
  split; [exact Hraise|].
  exact (proj1 (C9_generation_exception_caught (H := toy) unbounded [f]
                  initial_locals (start [0]%nat)
                  "f has no public callables." (start []) Hraise)).
Defined.

(** Three iterations, the third of which builds a duplicate. *)
Lemma C6_witness :
  iterate_body 3 unbounded [module_a] initial_locals (start tape_zeros)
  = three_iterations
  ∧ ∃ l s',
      three_iterations = (Ok l, s')
      ∧ NoDup (test_cases l ++ failing_test_cases l)
      ∧ execution_counter l = 3%nat
      ∧ length (executed (st_trace s')) = 2%nat.
Proof.
  assert (iterate_body 3 unbounded [module_a] initial_locals (start tape_zeros)
          = three_iterations) as Hrun by evaluate.
  split; [exact Hrun|].
  unfold three_iterations in *. eexists _, _. split; [reflexivity|].
  split; [|split; reflexivity].
  exact (proj1 (C6_no_duplicates (H := toy) unbounded [module_a] 3
                  (start tape_zeros) _ _ Hrun)).
Defined.

(** Two iterations: one test case passes, one fails. *)
Lemma C7_witness :
  iterate_body 2 unbounded [module_a] initial_locals (start tape_pass_fail)
  = two_iterations
  ∧ ∃ l s',
      two_iterations = (Ok l, s')
      ∧ test_cases l = [t1]
      ∧ failing_test_cases l = [[ToyCall "fail" []]]
      ∧ ∀ t, t ∈ test_cases l → t ∉ failing_test_cases l.
Proof.
  assert (iterate_body 2 unbounded [module_a] initial_locals
            (start tape_pass_fail) = two_iterations) as Hrun by evaluate.
  split; [exact Hrun|].
  unfold two_iterations in *. eexists _, _. split; [reflexivity|].
  split; [reflexivity|]. split; [reflexivity|].
  exact (proj1 (C7_classification (H := toy) unbounded [module_a] 2
                  (start tape_pass_fail) _ _ Hrun)).
Defined.

(** One target that can be enumerated, followed by one that cannot. *)
Lemma C3_witness :
  (∀ m', m' ∈ [module_a] →
     ∀ w, ∃ members w', get_members_from_module m' w = (Ok members, w'))
  ∧ (∀ w, ∃ w',
       get_members_from_module broken w
       = (Raise (GenerationException "cannot enumerate broken"), w'))
  ∧ ∃ s',
      generate_sequences 10 seconds unbounded 4 [module_a; broken] (start [])
      = Some (Raise (GenerationException "cannot enumerate broken"), s').
Proof.
  assert (∀ m', m' ∈ [module_a] →
     ∀ w, ∃ members w', get_members_from_module m' w = (Ok members, w'))
    as Hpre.
  { intros m' Hin%list_elem_of_singleton w. subst m'. by eexists _, _. }
  assert (∀ w, ∃ w',
       get_members_from_module broken w
       = (Raise (GenerationException "cannot enumerate broken"), w')) as Hm
    by (intros w; by eexists).
  split; [exact Hpre|]. split; [exact Hm|].
  destruct (C3_discovery_failure_aborts (H := toy) 10 seconds unbounded 4
              [module_a] broken [] _ (start []) Hpre Hm) as (s' & Hrun & _).
  by exists s'.
Defined.

(** One candidate built from a pool that holds [t1]. *)
Lemma C1_witness :
  candidate unbounded [t1] [module_a] (start [0; 0; 0]%nat)
  = candidate_from_t1
  ∧ ∃ method s0 sig,
      _random_public_method [module_a] (start [0; 0; 0]%nat) = (Ok method, s0)
      ∧ py_signature method = Some sig
      ∧ init_value_calls (st_trace candidate_from_t1.2)
        = (λ kp, (annotation kp.2, [t1])) <$> filter (λ kv, kv.1 ≠ "self") sig.
Proof.
  assert (candidate unbounded [t1] [module_a] (start [0; 0; 0]%nat)
          = candidate_from_t1) as Hrun by evaluate.
  split; [exact Hrun|]. unfold candidate_from_t1 in *.
  destruct (C1_synthesiser_calls (H := toy) unbounded [t1] [module_a]
              (start [0; 0; 0]%nat) _ _ Hrun)
    as [(method & s0 & sig & Hm & Hsig & Hcalls) _].
  by exists method, s0, sig.
Defined.

(** C1, as worded, fails: with the passing pool [[t1]] and a draw of zero
    sampled sequences, the accumulated sequence is empty, yet the synthesiser
    is passed the pool [[t1]]; it returns a reference to the statement of
    [t1], which is not part of the candidate [f(<reference>)]. *)
Lemma C1_counterexample :
  ¬ synthesiser_sees_accumulated unbounded [t1] [module_a]
      (start [0; 0; 0]%nat).
Proof.
  intros Hclaim.
  assert (_random_public_method [module_a] (start [0; 0; 0]%nat)
          = (Ok f, start [0]%nat)) as Hmethod by evaluate.
  assert (_random_test_cases unbounded [t1] (start [0]%nat)
          = (Ok [], {| st_world := [];
                       st_trace := [Logged DEBUG (LogSelected 0 1)] |}))
    as Htests by evaluate.
  assert (candidate unbounded [t1] [module_a] (start [0; 0; 0]%nat)
          = candidate_from_t1) as Hcand by evaluate.
  unfold candidate_from_t1 in Hcand.
  specialize (Hclaim _ _ _ _ _ _ Hmethod Htests Hcand
                (Some "int", [t1]) ltac:(by left)).
  by destruct Hclaim.
Qed.

(** C3, as worded, fails: the failure to enumerate the second target, although
    a [GenerationException], ends the whole run without pools, where the first
    target alone yields a passing and a failing test case. *)
Lemma C3_counterexample :
  fst <$> generate_sequences 10 seconds unbounded 4 [module_a; broken]
            (start tape_pass_fail)
  = Some (Raise (GenerationException "cannot enumerate broken"))
  ∧ fst <$> generate_sequences 10 seconds unbounded 4 [module_a]
              (start tape_pass_fail)
    = Some (Ok ([t1], [[ToyCall "fail" []]])).
Proof. split; evaluate. Qed.

(** C4, as worded, fails: from the same generator state, with the same
    collaborators, configuration, time limit and targets, a run under the
    one-second clock makes three iterations and a run under the three-second
    clock makes one, and their failing pools differ. *)
Lemma C4_counterexample :
  generate_sequences 10 seconds unbounded 4 [module_a] (start tape_pass_fail)
  = run_seconds
  ∧ generate_sequences 10 slow unbounded 4 [module_a] (start tape_pass_fail)
    = run_slow
  ∧ fst <$> run_seconds = Some (Ok ([t1], [[ToyCall "fail" []]]))
  ∧ fst <$> run_slow = Some (Ok ([t1], []))
  ∧ (λ r, last (st_trace r.2)) <$> run_seconds
    = Some (Some (Logged DEBUG (LogIterations 3)))
  ∧ (λ r, last (st_trace r.2)) <$> run_slow
    = Some (Some (Logged DEBUG (LogIterations 1))).
Proof. repeat split; evaluate. Qed.

End Runs.

(** * Further properties of the algorithm *)

Section Further.
Context `{Collaborators}.

Lemma bind_raise_inv {A B} (m : M A) (k : A → M B) s e s2 :
  bind m k s = (Raise e, s2) →
  m s = (Raise e, s2)
  ∨ ∃ a s1, m s = (Ok a, s1) ∧ k a s1 = (Raise e, s2).
Proof.
  unfold bind. destruct (m s) as [[a|e'] s1] eqn:Hm; [eauto|].
  intros [= -> ->]. by left.
Qed.

(** ** Discovery *)

Lemma find_objects_loop_ok types :
  ∀ acc s objs s',
    _find_objects_loop types acc s = (Ok objs, s') →
    ∃ memberss,
      Forall2 (λ m ms, ∃ w w', get_members_from_module m w = (Ok ms, w'))
              types memberss
      ∧ objs = acc ++ concat (map (map snd) memberss)
      ∧ st_trace s' = st_trace s.
Proof.
  induction types as [|m types IH]; intros acc s objs s'; simpl.
  - intros [= <- <-]. exists []. split; [constructor|].
    simpl. by rewrite app_nil_r.
  - intros Hrun. apply bind_ok_inv in Hrun as (ms & s1 & Hcall & Hrest).
    unfold call in Hcall.
    destruct (get_members_from_module m (st_world s)) as [r w'] eqn:Hm.
    injection Hcall as -> <-.
    apply IH in Hrest as (memberss & Hall & -> & Htr).
    exists (ms :: memberss). split; [constructor; eauto|].
    split; [simpl; by rewrite <- app_assoc|done].
Qed.

(** X1: when every target can be enumerated, the catalog that
    [_find_objects_under_test] returns is the list of targets themselves,
    in their order, followed by the member values that
    [get_members_from_module] returned for the first target, then those for
    the second, and so on; nothing is logged. *)
Theorem X1_catalog_shape types s objs s' :
  _find_objects_under_test types s = (Ok objs, s') →
  ∃ memberss,
    Forall2 (λ m ms, ∃ w w', get_members_from_module m w = (Ok ms, w'))
            types memberss
    ∧ objs = types ++ concat (map (map snd) memberss)
    ∧ types `prefix_of` objs
    ∧ st_trace s' = st_trace s.
Proof.
  intros Hrun. unfold _find_objects_under_test in Hrun.
  apply find_objects_loop_ok in Hrun as (memberss & Hall & -> & Htr).
  exists memberss. split; [done|]. split; [done|].
  split; [by eexists|done].
Qed.

(** ** Operation selector *)

Lemma choice_inv {A} (seq : list A) s r s' :
  choice seq s = (r, s') →
  (seq = [] ∧ r = Raise IndexError ∧ s' = s)
  ∨ (∃ x, r = Ok x ∧ x ∈ seq ∧ st_trace s' = st_trace s).
Proof.
  destruct seq as [|a seq'] eqn:E.
  - intros [= <- <-]. by left.
  - rewrite <- E. intros Hrun. right.
    destruct (choice_ok seq s) as (x & Hlook & Hx); [by subst|].
    subst seq. rewrite Hx in Hrun. injection Hrun as <- <-.
    exists x. split; [done|]. split; [|done].
    by eapply list_elem_of_lookup_2.
Qed.

(** A member on which the [inspect] predicates do not raise. *)
Definition inspectable (m : string * pyobject) : Prop :=
  ∀ repr, py_kind m.2 ≠ KFaulty repr.

Lemma inspect_member_inspectable name v s :
  inspectable (name, v) →
  inspect_member v s = (Ok (isclass v || ismethod v || isfunction v), s).
Proof.
  intros Hv. unfold inspect_member.
  destruct (py_kind v) eqn:E; try done. by destruct (Hv repr).
Qed.

Lemma inspect_member_faulty v repr s :
  py_kind v = KFaulty repr →
  inspect_member v s =
    (Raise (GenerationException ("Test member: " +:+ repr)),
     {| st_world := st_world s;
        st_trace := st_trace s ++ [Logged DEBUG (LogInspectFailed repr)] |}).
Proof. intros E. unfold inspect_member. by rewrite E. Qed.

(** The first faulty member stops [inspect.getmembers]. *)
Lemma getmembers_loop_faulty pre name v post repr s :
  Forall inspectable pre →
  py_kind v = KFaulty repr →
  getmembers_loop (pre ++ (name, v) :: post) inspect_member s =
    (Raise (GenerationException ("Test member: " +:+ repr)),
     {| st_world := st_world s;
        st_trace := st_trace s ++ [Logged DEBUG (LogInspectFailed repr)] |}).
Proof.
  intros Hpre Hv. induction Hpre as [|[key v'] pre Hm _ IH]; simpl.
  - by rewrite (bind_raise _ _ _ _ _ (inspect_member_faulty v repr s Hv)).
  - rewrite (bind_ok _ _ _ _ _ (inspect_member_inspectable key v' s Hm)).
    by rewrite (bind_raise _ _ _ _ _ IH).
Qed.

Lemma getmembers_loop_raise_inv attrs s e s' :
  getmembers_loop attrs inspect_member s = (Raise e, s') →
  ∃ name v repr,
    (name, v) ∈ attrs ∧ py_kind v = KFaulty repr
    ∧ e = GenerationException ("Test member: " +:+ repr).
Proof.
  induction attrs as [|[key v] attrs IH]; simpl; [done|].
  unfold bind at 1. unfold inspect_member at 1.
  destruct (py_kind v) eqn:E; simpl;
    try (unfold bind at 1;
         destruct (getmembers_loop attrs inspect_member s)
           as [[ms|e'] s1] eqn:Hrest; [done|];
         intros [= -> ->];
         destruct (IH eq_refl) as (name & v0 & repr & Hin & Hk & ->);
         exists name, v0, repr; split; [by right|done]).
  intros [= <- _]. exists key, v, repr. split; [by left|done].
Qed.

(** [inspect.getmembers] on an owner that can be inspected is the loop over
    its members. *)
Lemma getmembers_inspectable owner predicate :
  (∀ r, py_kind owner ≠ KFaulty r) →
  getmembers owner predicate = getmembers_loop (py_attrs owner) predicate.
Proof.
  intros Howner. unfold getmembers.
  destruct (py_kind owner) eqn:E; try done. by destruct (Howner repr).
Qed.

(** [inspect.getmembers] raises either the fault of the owner, as it is, or
    what the predicate raises on a member. *)
Lemma getmembers_raise_inv owner s e s' :
  getmembers owner inspect_member s = (Raise e, s') →
  (∃ repr, py_kind owner = KFaulty repr ∧ e = OtherException repr ∧ s' = s)
  ∨ ((∀ r, py_kind owner ≠ KFaulty r)
     ∧ ∃ name v repr,
         (name, v) ∈ py_attrs owner ∧ py_kind v = KFaulty repr
         ∧ e = GenerationException ("Test member: " +:+ repr)).
Proof.
  unfold getmembers.
  destruct (py_kind owner) eqn:E;
    try (intros Hrun; right; split; [done|];
         by eapply getmembers_loop_raise_inv).
  intros [= <- <-]. left. by exists repr.
Qed.

Lemma getmembers_ok_inspectable owner s members s' :
  getmembers owner inspect_member s = (Ok members, s') →
  ∀ r, py_kind owner ≠ KFaulty r.
Proof.
  unfold getmembers. destruct (py_kind owner); try done.
Qed.

Lemma public_members_raise_inv members s e s' :
  public_members members s = (Raise e, s') →
  e = IndexError ∧ s' = s ∧ ∃ v, (""%string, v) ∈ members.
Proof.
  revert s s'. induction members as [|[name v] members IH]; intros s s'; simpl;
    [done|].
  destruct name as [|c rest]; simpl.
  - intros [= <- <-]. split; [done|]. split; [done|]. exists v. by left.
  - unfold bind at 1. simpl. unfold bind at 1.
    destruct (public_members members s) as [[ms|e'] s1] eqn:Hrest; [done|].
    intros [= -> ->]. destruct (IH _ _ Hrest) as (-> & -> & v0 & Hin).
    split; [done|]. split; [done|]. exists v0. by right.
Qed.

(** X2: an operation that the selector returns is a member of an entry of
    the catalog, is accepted by one of [inspect.isclass], [inspect.ismethod]
    and [inspect.isfunction], is bound under a name that does not begin with
    an underscore, and has a [__name__] other than [_recording_isinstance];
    a successful selection logs nothing. *)
Theorem X2_selected_operation_is_public objs s method s' :
  _random_public_method objs s = (Ok method, s') →
  ∃ owner name,
    owner ∈ objs
    ∧ (name, method) ∈ py_attrs owner
    ∧ (isclass method || ismethod method || isfunction method) = true
    ∧ ¬ underscore_first name
    ∧ __name__ method ≠ "_recording_isinstance"
    ∧ st_trace s' = st_trace s.
Proof.
  unfold _random_public_method. intros Hrun.
  apply bind_ok_inv in Hrun as (owner & s1 & Hchoice & Hrun).
  apply bind_ok_inv in Hrun as (members & s2 & Hm & Hrun).
  apply bind_ok_inv in Hrun as (public & s3 & Hp & Hrun).
  apply choice_inv in Hchoice as [(_ & [=] & _)|(x & [= <-] & Hin & Htr1)].
  destruct (public_of_owner _ _ _ _ _ _ Hm Hp) as (Hpub & -> & ->).
  destruct public as [|p public']; [done|].
  apply choice_inv in Hrun as [([=] & _)|(y & [= <-] & Hy & Htr2)].
  rewrite Hpub in Hy. apply list_elem_of_fmap in Hy as ([name v] & -> & Hy).
  apply list_elem_of_filter in Hy as [[Hc [Hu Hn]] Hy].
  exists owner, name. split; [done|]. split; [done|].
  split; [by apply Is_true_true|]. split; [done|]. split; [done|].
  by rewrite Htr2.
Qed.

(** X3: the selector raises nothing but: [IndexError], on an empty catalog;
    the exception that the [inspect] predicates raise on the chosen entry
    itself, as it is (it is not a [GenerationException]); and, for a chosen
    entry that can be inspected, the [GenerationException] that wraps a fault
    of the [inspect] predicates on one of its members, [IndexError] on a
    member with an empty name, and the [GenerationException] saying that the
    chosen entry has no public callables, when no member of it passes both
    filters. *)
Theorem X3_selector_failures objs s e s' :
  _random_public_method objs s = (Raise e, s') →
  (objs = [] ∧ e = IndexError)
  ∨ ∃ owner,
      owner ∈ objs
      ∧ ((∃ repr, py_kind owner = KFaulty repr ∧ e = OtherException repr
                  ∧ is_generation_exception e = false)
         ∨ ((∀ r, py_kind owner ≠ KFaulty r)
            ∧ ((∃ name v repr,
                   (name, v) ∈ py_attrs owner ∧ py_kind v = KFaulty repr
                   ∧ e = GenerationException ("Test member: " +:+ repr))
               ∨ ((∃ v, (""%string, v) ∈ py_attrs owner) ∧ e = IndexError)
               ∨ (filter (λ m, is_callable_member m ∧ is_public_member m)
                         (py_attrs owner) = []
                  ∧ e = no_public_callables owner)))).
Proof.
  unfold _random_public_method. intros Hrun.
  apply bind_raise_inv in Hrun as [Hchoice|(owner & s1 & Hchoice & Hrun)].
  { apply choice_inv in Hchoice as [(-> & [= <-] & _)|(x & [=] & _)].
    by left. }
  right. exists owner.
  apply choice_inv in Hchoice as [(_ & [=] & _)|(x & [= <-] & Hin & _)].
  split; [done|].
  apply bind_raise_inv in Hrun as [Hm|(members & s2 & Hm & Hrun)].
  { apply getmembers_raise_inv in Hm
      as [(repr & Hk & -> & _)|(Howner & Hmember)].
    - left. by exists repr.
    - right. split; [done|]. by left. }
  right. split; [by eapply getmembers_ok_inspectable|].
  pose proof Hm as Hm'. apply getmembers_ok in Hm' as [-> ->].
  apply bind_raise_inv in Hrun as [Hp|(public & s3 & Hp & Hrun)].
  { right; left. apply public_members_raise_inv in Hp as (-> & _ & v & Hv).
    split; [|done]. exists v.
    by apply list_elem_of_filter in Hv as [_ Hv]. }
  right; right.
  destruct (public_of_owner _ _ _ _ _ _ Hm Hp) as (Hpub & -> & _).
  destruct public as [|p public'].
  - injection Hrun as <- _. split; [|done].
    symmetry in Hpub. by apply fmap_nil_inv in Hpub.
  - apply choice_inv in Hrun as [([=] & _)|(y & [=] & _)].
Qed.

(** X4: when the chosen entry itself can be inspected and the [inspect]
    predicates raise on a member of it (and on no member before it), the
    selector writes the fault to the debug log and raises
    [GenerationException("Test member: " + repr)]; the loop body catches it,
    so the iteration is counted and both pools stay as they are.  When the
    predicates raise on the chosen entry itself, nothing is logged or
    wrapped: the selector raises that exception as it is, and the loop body
    does not catch it. *)
Theorem X4_inspection_fault_is_wrapped
    cfg objs l s owner s1 pre name v post repr :
  choice objs s = (Ok owner, s1) →
  py_attrs owner = pre ++ (name, v) :: post →
  Forall inspectable pre →
  py_kind v = KFaulty repr →
  let wrapped := GenerationException ("Test member: " +:+ repr) in
  let logged :=
    {| st_world := st_world s1;
       st_trace := st_trace s1 ++ [Logged DEBUG (LogInspectFailed repr)] |} in
  ((∀ r, py_kind owner ≠ KFaulty r) →
   _random_public_method objs s = (Raise wrapped, logged)
   ∧ loop_body cfg objs l s =
       (Ok {| test_cases := test_cases l;
              failing_test_cases := failing_test_cases l;
              execution_counter := S (execution_counter l) |},
        {| st_world := st_world s1;
           st_trace := st_trace logged
                       ++ [Logged DEBUG (LogGenerateFailed wrapped)] |}))
  ∧ (∀ r, py_kind owner = KFaulty r →
       _random_public_method objs s = (Raise (OtherException r), s1)
       ∧ loop_body cfg objs l s = (Raise (OtherException r), s1)).
Proof.
  intros Hchoice Hattrs Hpre Hv wrapped logged. split.
  - intros Howner.
    assert (_random_public_method objs s = (Raise wrapped, logged)) as Hsel.
    { unfold _random_public_method. rewrite (bind_ok _ _ _ _ _ Hchoice).
      apply bind_raise. rewrite getmembers_inspectable by done.
      rewrite Hattrs. by apply getmembers_loop_faulty. }
    split; [exact Hsel|].
    apply (loop_body_caught cfg objs l s ("Test member: " +:+ repr) logged).
    unfold _generate_sequence. by apply bind_raise.
  - intros r Hr.
    assert (_random_public_method objs s = (Raise (OtherException r), s1))
      as Hsel.
    { unfold _random_public_method. rewrite (bind_ok _ _ _ _ _ Hchoice).
      apply bind_raise. unfold getmembers. by rewrite Hr. }
    split; [exact Hsel|].
    apply loop_body_propagated; [done|].
    unfold _generate_sequence. by apply bind_raise.
Qed.

(** ** Argument synthesis *)

Lemma random_values_loop_raise pool callable_ parameters :
  ∀ values s e s',
    _random_values_loop pool callable_ parameters values s = (Raise e, s') →
    ∃ k name param w,
      parameters !! k = Some (name, param)
      ∧ (init_value (annotation param) pool w).1 = Raise e
      ∧ init_value_calls (st_trace s')
        = init_value_calls (st_trace s)
          ++ take (S k) ((λ kp, (annotation kp.2, pool)) <$> parameters).
Proof.
  induction parameters as [|[name param] parameters IH];
    intros values s e s'; simpl; [done|].
  intros Hrun. apply bind_raise_inv in Hrun as [Hv|(v & s1 & Hv & Hrun)].
  - rewrite call_init_value_run in Hv. injection Hv as Hv <-.
    exists O, name, param, (st_world s). split; [done|]. split; [done|].
    simpl. rewrite init_value_calls_app. simpl. by rewrite take_0.
  - rewrite call_init_value_run in Hv. injection Hv as Hv <-.
    apply bind_raise_inv in Hrun as [[=]|([] & s2 & Hlog & Hrun)].
    injection Hlog as <-.
    apply IH in Hrun as (k & name' & param' & w & Hk & Hw & Hcalls).
    exists (S k), name', param', w. split; [done|]. split; [done|].
    rewrite Hcalls. simpl. rewrite !init_value_calls_app. simpl.
    by rewrite app_nil_r, <- app_assoc.
Qed.

(** X5: [_random_values] returns one triple per entry of the callable's
    signature whose name is not [self], in the order of the signature, and
    each triple carries that entry's name and [Parameter]; so no returned
    triple is named [self], and the list is as long as the signature without
    its [self] entries. *)
Theorem X5_random_values_shape pool callable_ s values s' :
  _random_values pool callable_ s = (Ok values, s') →
  ∃ sig,
    py_signature callable_ = Some sig
    ∧ (λ v, (v.1.1, v.1.2)) <$> values = filter (λ kv, kv.1 ≠ "self") sig
    ∧ length values = length (filter (λ kv, kv.1 ≠ "self") sig)
    ∧ Forall (λ v, v.1.1 ≠ "self") values.
Proof.
  unfold _random_values. intros Hrun.
  apply bind_ok_inv in Hrun as (sig & s1 & Hsig & Hloop).
  unfold signature in Hsig.
  destruct (py_signature callable_) as [sig'|]; [|discriminate].
  injection Hsig as -> <-. exists sig. split; [done|].
  apply random_values_loop_calls in Hloop as [_ Hnames]. simpl in Hnames.
  split; [exact Hnames|]. split.
  - by rewrite <- Hnames, length_fmap.
  - apply Forall_forall. intros v Hv.
    assert ((v.1.1, v.1.2) ∈ filter (λ kv, kv.1 ≠ "self") sig) as Hin.
    { rewrite <- Hnames. apply list_elem_of_fmap. by exists v. }
    by apply list_elem_of_filter in Hin as [Hne _].
Qed.

(** X6: [_random_values] raises either [ValueError], when
    [inspect.signature] has no signature for the callable (then the
    synthesiser is not called at all), or the exception that [init_value]
    raised for one of the parameters; in that case the synthesiser has been
    called for the parameters up to and including that one, in order, and for
    none after it. *)
Theorem X6_synthesis_stops_at_first_failure pool callable_ s e s' :
  _random_values pool callable_ s = (Raise e, s') →
  (py_signature callable_ = None ∧ e = ValueError ∧ s' = s)
  ∨ ∃ sig k name param w,
      py_signature callable_ = Some sig
      ∧ filter (λ kv, kv.1 ≠ "self") sig !! k = Some (name, param)
      ∧ (init_value (annotation param) pool w).1 = Raise e
      ∧ init_value_calls (st_trace s')
        = init_value_calls (st_trace s)
          ++ take (S k) ((λ kp, (annotation kp.2, pool))
                           <$> filter (λ kv, kv.1 ≠ "self") sig).
Proof.
  unfold _random_values, signature. intros Hrun.
  destruct (py_signature callable_) as [sig|] eqn:Esig.
  - right. rewrite (bind_ok _ _ s sig s) in Hrun by done.
    apply random_values_loop_raise in Hrun
      as (k & name & param & w & Hk & Hw & Hcalls).
    by exists sig, k, name, param, w.
  - left. by injection Hrun as <- <-.
Qed.

(** ** Sequence sampler *)

(** X7: when no sequence of the passing pool is eligible (the pool is empty,
    or every sequence in it has reached [max_sequence_length]) and
    [max_sequences_combined] is not negative, the sampler returns the empty
    list; it still draws once from the generator and logs the selection of 0
    test cases. *)
Theorem X7_nothing_eligible cfg (pool : list test_case) s :
  0 ≤ max_sequences_combined cfg →
  selectables cfg pool = [] →
  _random_test_cases cfg pool s =
    (Ok [],
     {| st_world := (randbelow 1 (st_world s)).2;
        st_trace := st_trace s
                    ++ [Logged DEBUG (LogSelected 0 (length pool))] |}).
Proof.
  intros Hcap Hnone. unfold _random_test_cases. rewrite Hnone.
  assert (upper_bound cfg [] = 0) as -> by (unfold upper_bound; simpl; case_decide; lia).
  rewrite (bind_ok _ _ _ _ _ (randint_ok 0 0 s ltac:(lia))).
  change (Z.to_nat (0 + 1 - 0)) with 1%nat.
  pose proof (randbelow_lt 1 (st_world s) ltac:(lia)) as Hdraw.
  replace (randbelow 1 (st_world s)).1 with O by lia.
  reflexivity.
Qed.

(** ** Growth of the pools *)

(** A step hands at most one test case to the executor, whatever it
    returns or raises, and only a test case that is in neither pool. *)
Lemma step_executes_at_most_one cfg tcs ftcs objs s r s' :
  _generate_sequence cfg tcs ftcs objs s = (r, s') →
  executed (st_trace s') = executed (st_trace s)
  ∨ ∃ new, executed (st_trace s') = executed (st_trace s) ++ [new]
           ∧ (new ∉ tcs) ∧ (new ∉ ftcs).
Proof.
  rewrite generate_sequence_split. unfold bind.
  destruct (candidate cfg tcs objs s) as [[new|e] s1] eqn:Hcand.
  - pose proof (candidate_executes_nothing _ _ _ _ _ _ Hcand) as Hex.
    destruct (decide (new ∈ tcs ∨ new ∈ ftcs)) as [Hdup|Hnew].
    + rewrite classify_duplicate by done. intros [= <- <-]. by left.
    + assert (new ∉ tcs) as H1 by (intros ?; apply Hnew; by left).
      assert (new ∉ ftcs) as H2 by (intros ?; apply Hnew; by right).
      rewrite classify_unique by done. intros Hcl. right. exists new.
      split; [|done].
      destruct (execute new (st_world s1)).1 as [[]|];
        injection Hcl as <- <-; simpl;
        by rewrite executed_app, Hex.
  - intros [= <- <-]. left. by eapply candidate_executes_nothing.
Qed.

Ltac growth :=
  repeat split; simpl;
  try done; try apply sublist_nil_l; try reflexivity; try lia.

(** What one iteration that stays in the loop adds. *)
Lemma loop_body_growth cfg objs l s l' s' :
  loop_body cfg objs l s = (Ok l', s') →
  ∃ p f ex,
    test_cases l' = test_cases l ++ p
    ∧ failing_test_cases l' = failing_test_cases l ++ f
    ∧ executed (st_trace s') = executed (st_trace s) ++ ex
    ∧ p `sublist_of` ex ∧ f `sublist_of` ex
    ∧ (length p + length f ≤ length ex)%nat ∧ (length ex ≤ 1)%nat.
Proof.
  intros Hbody. pose proof Hbody as Hbody0.
  apply loop_body_ok_inv in Hbody as [(pa & fa & Hstep & ->)|Hcaught].
  - clear Hbody0. apply generate_sequence_ok_inv in Hstep
      as (new & s1 & Hcand & [(_ & -> & -> & ->)|(_ & _ & -> & Hv)]).
    + exists [], [], []. simpl. rewrite !app_nil_r.
      rewrite (candidate_executes_nothing _ _ _ _ _ _ Hcand).
      growth.
    + pose proof (candidate_executes_nothing _ _ _ _ _ _ Hcand) as Hex.
      destruct Hv as [(_ & -> & ->)|(_ & -> & ->)].
      * exists [], [new], [new]. simpl. rewrite executed_app, Hex, app_nil_r.
        growth.
      * exists [new], [], [new]. simpl. rewrite executed_app, Hex, app_nil_r.
        growth.
  - destruct Hcaught as (args & s1 & Hstep & ->).
    rewrite (loop_body_caught _ _ _ _ _ _ Hstep) in Hbody0.
    injection Hbody0 as <-.
    simpl. rewrite executed_app. simpl. rewrite !app_nil_r.
    apply step_executes_at_most_one in Hstep as [->|(new & -> & _)].
    + exists [], [], []. rewrite !app_nil_r. growth.
    + exists [], [], [new]. rewrite !app_nil_r. growth.
Qed.

(** What [n] iterations add. *)
Lemma iterate_body_growth cfg objs n :
  ∀ l s l' s',
    iterate_body n cfg objs l s = (Ok l', s') →
    ∃ p f ex,
      test_cases l' = test_cases l ++ p
      ∧ failing_test_cases l' = failing_test_cases l ++ f
      ∧ executed (st_trace s') = executed (st_trace s) ++ ex
      ∧ p `sublist_of` ex ∧ f `sublist_of` ex
      ∧ (length p + length f ≤ length ex)%nat ∧ (length ex ≤ n)%nat.
Proof.
  induction n as [|n IH]; intros l s l' s'; simpl.
  - intros [= <- <-]. exists [], [], []. rewrite !app_nil_r. growth.
  - intros Hrun. apply bind_ok_inv in Hrun as (l1 & s1 & Hbody & Hrest).
    apply loop_body_growth in Hbody
      as (p1 & f1 & ex1 & Hp1 & Hf1 & Hex1 & Sp1 & Sf1 & Hl1 & Hn1).
    apply IH in Hrest
      as (p2 & f2 & ex2 & Hp2 & Hf2 & Hex2 & Sp2 & Sf2 & Hl2 & Hn2).
    exists (p1 ++ p2), (f1 ++ f2), (ex1 ++ ex2).
    rewrite Hp2, Hp1, Hf2, Hf1, Hex2, Hex1, !app_assoc, !length_app.
    repeat split; try done; try (by apply sublist_app); lia.
Qed.

(** X9: the pools are append-only.  After any further iterations the
    passing pool begins with the passing pool as it was, the failing pool
    with the failing pool as it was, and together they have gained at most
    one test case per iteration, while the iteration counter has gained
    exactly one per iteration. *)
Theorem X9_pools_append_only cfg objs n l s l' s' :
  iterate_body n cfg objs l s = (Ok l', s') →
  test_cases l `prefix_of` test_cases l'
  ∧ failing_test_cases l `prefix_of` failing_test_cases l'
  ∧ (length (test_cases l') + length (failing_test_cases l')
     ≤ length (test_cases l) + length (failing_test_cases l) + n)%nat
  ∧ execution_counter l' = (execution_counter l + n)%nat.
Proof.
  intros Hrun. pose proof (iterate_body_counter _ _ _ _ _ _ _ Hrun) as Hc.
  apply iterate_body_growth in Hrun
    as (p & f & ex & Hp & Hf & _ & _ & _ & Hl & Hn).
  split; [by exists p|]. split; [by exists f|]. split; [|done].
  rewrite Hp, Hf, !length_app. lia.
Qed.

(** X10: no test case enters a pool without having been handed to the
    executor.  After any number of iterations from the empty pools, each
    pool is, in order, a sublist of the test cases executed during those
    iterations, the two pools together are no more than the executions, and
    there is at most one execution per iteration. *)
Theorem X10_accepted_were_executed cfg objs n s l s' :
  iterate_body n cfg objs initial_locals s = (Ok l, s') →
  ∃ ex,
    executed (st_trace s') = executed (st_trace s) ++ ex
    ∧ test_cases l `sublist_of` ex
    ∧ failing_test_cases l `sublist_of` ex
    ∧ (length (test_cases l) + length (failing_test_cases l) ≤ length ex)%nat
    ∧ (length ex ≤ n)%nat.
Proof.
  intros Hrun. apply iterate_body_growth in Hrun
    as (p & f & ex & Hp & Hf & Hex & Sp & Sf & Hl & Hn).
  simpl in Hp, Hf. subst. by exists ex.
Qed.

(** ** Exceptions of the executor and uncaught exceptions *)

(** X11: a [GenerationException] raised by the executor is caught like any
    other.  The candidate, which is in neither pool, has been handed to the
    executor, but it enters no pool; the exception is logged and the
    iteration is counted. *)
Theorem X11_executor_exception_caught cfg objs l s new s1 args :
  candidate cfg (test_cases l) objs s = (Ok new, s1) →
  new ∉ test_cases l → new ∉ failing_test_cases l →
  (execute new (st_world s1)).1 = Raise (GenerationException args) →
  loop_body cfg objs l s =
    (Ok {| test_cases := test_cases l;
           failing_test_cases := failing_test_cases l;
           execution_counter := S (execution_counter l) |},
     {| st_world := (execute new (st_world s1)).2;
        st_trace :=
          st_trace s1
          ++ [ExecuteCalled new;
              Logged DEBUG (LogGenerateFailed (GenerationException args))] |}).
Proof.
  intros Hcand H1 H2 Hraise.
  assert (_generate_sequence cfg (test_cases l) (failing_test_cases l) objs s
          = (Raise (GenerationException args),
             {| st_world := (execute new (st_world s1)).2;
                st_trace := st_trace s1 ++ [ExecuteCalled new] |})) as Hstep.
  { rewrite generate_sequence_split, (bind_ok _ _ _ _ _ Hcand).
    by rewrite classify_unique, Hraise. }
  rewrite (loop_body_caught _ _ _ _ _ _ Hstep). simpl.
  by rewrite <- app_assoc.
Qed.

(** An exception that the loop body lets through ends the loop, however
    much time is left. *)
Lemma while_loop_raise clock cfg time_limit start_time objs k :
  ∀ fuel reads l s l1 s1 e s2,
    (∀ i, (i ≤ k)%nat →
          before_deadline (clock (reads + i)%nat) start_time time_limit = true) →
    iterate_body k cfg objs l s = (Ok l1, s1) →
    loop_body cfg objs l1 s1 = (Raise e, s2) →
    (k < fuel)%nat →
    while_loop fuel clock reads cfg time_limit start_time objs l s
    = Some (Raise e, s2).
Proof.
  induction k as [|k IH]; intros fuel reads l s l1 s1 e s2 Hbefore Hit Hbody Hf;
    (destruct fuel as [|fuel]; [lia|]); simpl in *.
  - injection Hit as <- <-.
    pose proof (Hbefore O ltac:(lia)) as H0. rewrite Nat.add_0_r in H0.
    by rewrite H0, Hbody.
  - apply bind_ok_inv in Hit as (l0 & s0 & Hfirst & Hrest).
    pose proof (Hbefore O ltac:(lia)) as H0. rewrite Nat.add_0_r in H0.
    rewrite H0, Hfirst.
    eapply IH; [|exact Hrest|exact Hbody|lia].
    intros i Hi. rewrite Nat.add_succ_comm. apply Hbefore. lia.
Qed.

(** X12: the loop catches [GenerationException] only.  When, after [k]
    iterations, a step raises any other exception (such as the [ValueError]
    of [inspect.signature] or the [IndexError] of [random.choice]) before the
    deadline, [generate_sequences] raises that exception: it returns no
    pools, although time is left, and does not log the end of the
    generation. *)
Theorem X12_other_exceptions_end_the_run
    fuel clock cfg time_limit modules s objs s1 k l s2 e s3 :
  prologue time_limit modules s = (Ok objs, s1) →
  iterate_body k cfg objs initial_locals s1 = (Ok l, s2) →
  _generate_sequence cfg (test_cases l) (failing_test_cases l) objs s2
    = (Raise e, s3) →
  is_generation_exception e = false →
  (∀ i, (i ≤ k)%nat → clock (S i) - clock O < time_limit * 1000000) →
  (k < fuel)%nat →
  generate_sequences fuel clock cfg time_limit modules s = Some (Raise e, s3).
Proof.
  intros Hpro Hit Hstep He Hbefore Hfuel. unfold generate_sequences.
  rewrite Hpro.
  rewrite (while_loop_raise clock cfg time_limit (clock O) objs k
             fuel 1 initial_locals s1 l s2 e s3); [done| |done| |done].
  - intros i Hi. apply before_deadline_true. simpl. by apply Hbefore.
  - by apply loop_body_propagated.
Qed.

(** ** Edges of the generation loop *)

(** X13: with a time limit of zero or less, and a clock that does not run
    backwards between its first two readings, [generate_sequences] still
    enumerates the targets, but then makes no iteration: it returns two empty
    pools and logs 0 passing test cases, 0 failing test cases and 0
    iterations. *)
Theorem X13_no_time_no_iteration fuel clock cfg time_limit modules s objs s1 :
  time_limit ≤ 0 → clock O ≤ clock 1%nat →
  prologue time_limit modules s = (Ok objs, s1) →
  generate_sequences (S fuel) clock cfg time_limit modules s =
    Some (Ok ([], []),
          {| st_world := st_world s1;
             st_trace :=
               st_trace s1
               ++ [Logged INFO LogFinish; Logged DEBUG (LogPassing 0);
                   Logged DEBUG (LogFailing 0);
                   Logged DEBUG (LogIterations 0)] |}).
Proof.
  intros Hlimit Hclock Hpro. unfold generate_sequences. rewrite Hpro. simpl.
  assert (before_deadline (clock 1%nat) (clock O) time_limit = false) as ->
    by (apply before_deadline_false; lia).
  unfold epilogue, bind, log, emit, ret. simpl.
  by rewrite <- !app_assoc.
Qed.




(** X15: with an empty list of targets the catalog is empty, and unless the
    deadline has passed at the first evaluation of the loop condition, the
    first iteration's [random.choice] raises [IndexError], which
    [generate_sequences] does not catch. *)
Theorem X15_no_targets fuel clock cfg time_limit s :
  clock 1%nat - clock O < time_limit * 1000000 →
  generate_sequences (S fuel) clock cfg time_limit [] s =
    Some (Raise IndexError,
          {| st_world := st_world s;
             st_trace :=
               st_trace s
               ++ [Logged INFO LogStart; Logged DEBUG (LogTimeLimit time_limit);
                   Logged DEBUG (LogModules [])] |}).
Proof.
  intros Hbefore. unfold generate_sequences.
  assert (prologue time_limit [] s =
            (Ok [],
             {| st_world := st_world s;
                st_trace :=
                  st_trace s
                  ++ [Logged INFO LogStart; Logged DEBUG (LogTimeLimit time_limit);
                      Logged DEBUG (LogModules [])] |})) as ->.
  { unfold prologue, bind, log, emit, _find_objects_under_test. simpl.
    by rewrite <- !app_assoc. }
  simpl.
  assert (before_deadline (clock 1%nat) (clock O) time_limit = true) as ->
    by (by apply before_deadline_true).
  reflexivity.
Qed.

(** ** Length of a candidate *)

Section StatementCounts.

(** What the test-case class does to the statement list, as far as lengths
    go: a new test case has no statement, [append_test_case] appends as many
    statements as the appended test case has, and [add_statement] adds one. *)
Hypothesis default_empty : statements DefaultTestCase = [].
Hypothesis append_length : ∀ new t,
  length (statements (append_test_case new t))
  = (length (statements new) + length (statements t))%nat.
Hypothesis add_length : ∀ new stmt,
  length (statements (add_statement new stmt))
  = S (length (statements new)).

Lemma merged_length tests :
  ∀ new,
    length (statements (foldl append_test_case new tests))
    = (length (statements new)
       + sum_list ((λ t, length (statements t)) <$> tests))%nat.
Proof.
  induction tests as [|t tests IH]; intros new; [simpl; lia|].
  rewrite fmap_cons. cbn [foldl]. rewrite IH, append_length.
  change (sum_list (?a :: ?l)) with (a + sum_list l)%nat. lia.
Qed.

Lemma sum_list_bounded (tests : list test_case) (b : nat) :
  Forall (λ t, (length (statements t) ≤ b)%nat) tests →
  (sum_list ((λ t, length (statements t)) <$> tests) ≤ length tests * b)%nat.
Proof.
  induction 1 as [|t tests Ht _ IH]; [simpl; lia|].
  rewrite fmap_cons.
  change (sum_list (?a :: ?l)) with (a + sum_list l)%nat.
  cbn [length]. lia.
Qed.

(** X8: a candidate has one statement more than the sampled sequences have
    together.  So [max_sequence_length] does not cap the candidates: with
    both caps positive a candidate has at most
    [1 + max_sequences_combined * (max_sequence_length - 1)] statements, since
    each sampled sequence has fewer than [max_sequence_length] statements and
    at most [max_sequences_combined] are sampled. *)
Theorem X8_candidate_length cfg pool objs s new s' :
  candidate cfg pool objs s = (Ok new, s') →
  ∃ tests,
    tests ⊆+ selectables cfg pool
    ∧ length (statements new)
      = S (sum_list ((λ t, length (statements t)) <$> tests))
    ∧ (0 < max_sequence_length cfg → 0 < max_sequences_combined cfg →
       Z.of_nat (length (statements new))
       ≤ 1 + max_sequences_combined cfg * (max_sequence_length cfg - 1)).
Proof.
  unfold candidate. intros Hrun.
  apply bind_ok_inv in Hrun as (method & s1 & _ & Hrun).
  apply bind_ok_inv in Hrun as (tests & s2 & Htests & Hrun).
  apply bind_ok_inv in Hrun as (values & s3 & _ & Hext).
  unfold _extend in Hext.
  apply bind_ok_inv in Hext as (stmt & s4 & _ & Hext).
  apply bind_ok_inv in Hext as ([] & s5 & _ & [= <- _]).
  apply random_test_cases_ok_inv in Htests as (Hsub & Hlen & Hcap & _).
  exists tests. split; [done|].
  assert (length (statements
            (add_statement (foldl append_test_case DefaultTestCase tests) stmt))
          = S (sum_list ((λ t, length (statements t)) <$> tests))) as Hcount.
  { rewrite add_length, merged_length, default_empty. simpl. lia. }
  split; [exact Hcount|].
  intros Hmax Hcomb. rewrite Hcount.
  assert (Forall (λ t, (length (statements t)
                        ≤ Z.to_nat (max_sequence_length cfg - 1))%nat) tests)
    as Hshort.
  { apply Forall_forall. intros t Ht.
    apply (submseteq_elem _ _ _ Hsub) in Ht.
    apply elem_of_selectables in Ht as [_ Ht]. specialize (Ht ltac:(lia)).
    lia. }
  apply sum_list_bounded in Hshort.
  assert (Z.of_nat (length tests) ≤ max_sequences_combined cfg) as Hfew.
  { unfold upper_bound in Hlen. rewrite decide_False in Hlen by lia. lia. }
  nia.
Qed.

End StatementCounts.

End Further.

(** * Further concrete runs *)

Section FurtherRuns.
Import Toy.

Ltac compute_it := vm_compute; reflexivity.

(** A member on which the [inspect] predicates raise, between two
    functions. *)
Definition faulty : pyobject :=
  PyObject "weird" (KFaulty "RuntimeError('boom')") [] None.
Definition module_c : pyobject :=
  PyObject "module_c" KModule [("f", f); ("weird", faulty); ("z", fail_)] None.

(** A method with a receiver, a function whose second parameter has no
    value, and a function without a signature. *)
Definition method_m : pyobject :=
  PyObject "m" KFunction []
    (Some [("self", {| annotation := None |}); ("x", int_param);
           ("y", int_param)]).
Definition g : pyobject :=
  function "g" [("x", int_param); ("y", unknown_param); ("z", int_param)].
Definition h : pyobject := PyObject "h" KFunction [] None.
Definition module_d : pyobject := PyObject "module_d" KModule [("h", h)] None.

(** The toy collaborators with an executor that gives up on calls of
    [fail] by raising a [GenerationException]. *)
Definition strict_execute (t : list toy_statement) (tape : list nat)
  : result bool * list nat :=
  match last t with
  | Some s =>
      if bool_decide (callee_name s = "fail")
      then (Raise (GenerationException "executor gave up"), tape)
      else (Ok false, tape)
  | None => (Ok false, tape)
  end.

Definition toy_strict : Collaborators := {|
  world := list nat;
  value := toy_value;
  statement := toy_statement;
  test_case := list toy_statement;
  statements := λ t, t;
  DefaultTestCase := [];
  append_test_case := toy_append;
  add_statement := λ new s, new ++ [s];
  randbelow := toy_randbelow;
  randbelow_lt := toy_randbelow_lt;
  redraws := 64;
  get_members_from_module := toy_get_members;
  init_value := toy_init_value;
  create_statement := toy_create_statement;
  execute := strict_execute
|}.

Definition strict_start (tape : list nat) : @state toy_strict :=
  {| st_world := (tape : @world toy_strict); st_trace := [] |}.

Definition strict_candidate : result (@test_case toy_strict) * @state toy_strict :=
  Eval vm_compute in
    @candidate toy_strict unbounded [] [module_a] (strict_start [0; 1; 0]%nat).

Definition capped_candidate : result test_case * state :=
  Eval vm_compute in
    candidate capped [t1; t2; t1] [module_a] (start [0; 0; 1; 0; 0]%nat).

Definition discovered : result (list pyobject) * state :=
  Eval vm_compute in _find_objects_under_test [module_a] (start []).

Definition values_of_m : result (list (string * parameter * value)) * state :=
  Eval vm_compute in _random_values [t1] method_m (start []).

Definition values_of_g : result (list (string * parameter * value)) * state :=
  Eval vm_compute in _random_values [t1] g (start []).

Definition prologue_d : result (list pyobject) * state :=
  Eval vm_compute in prologue 4 [module_d] (start []).

Definition step_d
  : result (list test_case * list test_case) * state :=
  Eval vm_compute in
    match prologue_d with
    | (Ok objs, s1) => _generate_sequence unbounded [] [] objs s1
    | (Raise e, s1) => (Raise e, s1)
    end.

Definition prologue_zero : result (list pyobject) * state :=
  Eval vm_compute in prologue 0 [module_a] (start []).

(** Discovery of one module. *)
Lemma X1_witness :
  _find_objects_under_test [module_a] (start []) = discovered
  ∧ [module_a] `prefix_of` [module_a; hidden; f; fail_]
  ∧ discovered.1 = Ok [module_a; hidden; f; fail_].
Proof.
  assert (_find_objects_under_test [module_a] (start []) = discovered)
    as Hrun by compute_it.
  split; [exact Hrun|]. split; [|reflexivity].
  unfold discovered in Hrun.
  destruct (X1_catalog_shape (H := toy) [module_a] (start []) _ _ Hrun)
    as (memberss & _ & _ & Hprefix & _).
  exact Hprefix.
Defined.

(** A selection from one module. *)
Lemma X2_witness :
  _random_public_method [module_a] (start [0; 1]%nat) = (Ok fail_, start [])
  ∧ ∃ owner name,
      owner ∈ [module_a] ∧ (name, fail_) ∈ py_attrs owner
      ∧ ¬ underscore_first name.
Proof.
  assert (_random_public_method [module_a] (start [0; 1]%nat)
          = (Ok fail_, start [])) as Hrun by compute_it.
  split; [exact Hrun|].
  destruct (X2_selected_operation_is_public (H := toy) [module_a]
              (start [0; 1]%nat) fail_ (start []) Hrun)
    as (owner & name & Ho & Hm & _ & Hu & _).
  by exists owner, name.
Defined.

(** A selection from a catalog whose only entry is an object on which the
    [inspect] predicates raise. *)
Lemma X3_witness :
  _random_public_method [faulty] (start [0]%nat)
  = (Raise (OtherException "RuntimeError('boom')"), start [])
  ∧ ([faulty] = [] ∧ OtherException "RuntimeError('boom')" = IndexError
     ∨ ∃ owner, owner ∈ [faulty]).
Proof.
  assert (_random_public_method [faulty] (start [0]%nat)
          = (Raise (OtherException "RuntimeError('boom')"), start []))
    as Hrun by compute_it.
  split; [exact Hrun|].
  destruct (X3_selector_failures (H := toy) [faulty] (start [0]%nat) _ _ Hrun)
    as [Hempty|(owner & Hin & _)].
  - by left.
  - right. by exists owner.
Defined.

(** A module with a faulty member after a function. *)
Lemma X4_witness :
  choice [module_c] (start [0; 1]%nat) = (Ok module_c, start [1]%nat)
  ∧ py_attrs module_c = [("f", f)] ++ ("weird", faulty) :: [("z", fail_)]
  ∧ Forall inspectable [("f", f)]
  ∧ py_kind faulty = KFaulty "RuntimeError('boom')"
  ∧ (∀ r, py_kind module_c ≠ KFaulty r)
  ∧ _random_public_method [module_c] (start [0; 1]%nat)
    = (Raise (GenerationException "Test member: RuntimeError('boom')"),
       {| st_world := [1%nat];
          st_trace :=
            [Logged DEBUG (LogInspectFailed "RuntimeError('boom')")] |}).
Proof.
  assert (choice [module_c] (start [0; 1]%nat) = (Ok module_c, start [1]%nat))
    as Hchoice by compute_it.
  assert (Forall inspectable [("f", f)]) as Hpre
    by (repeat constructor; intros repr; discriminate).
  assert (∀ r, py_kind module_c ≠ KFaulty r) as Howner
    by (intros r; discriminate).
  split; [exact Hchoice|]. split; [reflexivity|]. split; [exact Hpre|].
  split; [reflexivity|]. split; [exact Howner|].
  exact (proj1 (proj1 (X4_inspection_fault_is_wrapped (H := toy) unbounded
                         [module_c] initial_locals (start [0; 1]%nat) module_c
                         (start [1]%nat) [("f", f)] "weird" faulty
                         [("z", fail_)] "RuntimeError('boom')" Hchoice eq_refl
                         Hpre eq_refl) Howner)).
Defined.

(** The values for a method with a receiver and two parameters. *)
Lemma X5_witness :
  _random_values [t1] method_m (start []) = values_of_m
  ∧ ∃ values s',
      values_of_m = (Ok values, s')
      ∧ length values = 2%nat
      ∧ Forall (λ v, v.1.1 ≠ "self") values.
Proof.
  assert (_random_values [t1] method_m (start []) = values_of_m)
    as Hrun by compute_it.
  split; [exact Hrun|]. unfold values_of_m in *.
  eexists _, _. split; [reflexivity|]. split; [reflexivity|].
  destruct (X5_random_values_shape (H := toy) [t1] method_m (start []) _ _ Hrun)
    as (sig & _ & _ & _ & Hself).
  exact Hself.
Defined.

(** The values for a function whose second parameter has no value. *)
Lemma X6_witness :
  _random_values [t1] g (start []) = values_of_g
  ∧ values_of_g.1 = Raise (GenerationException "no value for unknown")
  ∧ init_value_calls (st_trace values_of_g.2)
    = [(Some "int", [t1]); (Some "unknown", [t1])]
  ∧ (py_signature g = None
     ∨ ∃ sig k name param,
         py_signature g = Some sig
         ∧ filter (λ kv, kv.1 ≠ "self") sig !! k = Some (name, param)).
Proof.
  assert (_random_values [t1] g (start []) = values_of_g) as Hrun
    by compute_it.
  split; [exact Hrun|]. split; [reflexivity|]. split; [reflexivity|].
  unfold values_of_g in Hrun.
  destruct (X6_synthesis_stops_at_first_failure (H := toy) [t1] g (start [])
              _ _ Hrun)
    as [(Hnone & _)|(sig & k & name & param & w & Hsig & Hk & _)].
  - by left.
  - right. by exists sig, k, name, param.
Defined.

(** The sampler on the empty pool. *)
Lemma X7_witness :
  0 ≤ max_sequences_combined capped
  ∧ selectables capped ([] : list test_case) = []
  ∧ _random_test_cases capped [] (start [7]%nat)
    = (Ok [], {| st_world := [];
                 st_trace := [Logged DEBUG (LogSelected 0 0)] |}).
Proof.
  assert (0 ≤ max_sequences_combined capped) as Hcap by (simpl; lia).
  assert (selectables capped ([] : list test_case) = []) as Hnone
    by reflexivity.
  split; [exact Hcap|]. split; [exact Hnone|].
  exact (X7_nothing_eligible (H := toy) capped [] (start [7]%nat) Hcap Hnone).
Defined.

(** A candidate merged from one sampled sequence, under both caps. *)
Lemma X8_witness :
  statements (DefaultTestCase : test_case) = []
  ∧ candidate capped [t1; t2; t1] [module_a] (start [0; 0; 1; 0; 0]%nat)
    = capped_candidate
  ∧ ∃ new s',
      capped_candidate = (Ok new, s')
      ∧ length (statements new) = 2%nat
      ∧ Z.of_nat (length (statements new)) ≤ 1 + 1 * (2 - 1).
Proof.
  assert (candidate capped [t1; t2; t1] [module_a]
            (start [0; 0; 1; 0; 0]%nat) = capped_candidate) as Hrun
    by compute_it.
  assert (∀ new t : list toy_statement,
            length (toy_append new t) = (length new + length t)%nat)
    as Happend
    by (intros new t; unfold toy_append; by rewrite length_app, length_map).
  assert (∀ (new : list toy_statement) stmt,
            length (new ++ [stmt]) = S (length new)) as Hadd
    by (intros new stmt; rewrite length_app; simpl; lia).
  split; [reflexivity|]. split; [exact Hrun|].
  unfold capped_candidate in *.
  eexists _, _. split; [reflexivity|]. split; [reflexivity|].
  destruct (X8_candidate_length (H := toy) eq_refl Happend Hadd capped
              [t1; t2; t1] [module_a] (start [0; 0; 1; 0; 0]%nat) _ _ Hrun)
    as (tests & _ & _ & Hbound).
  apply Hbound; simpl; lia.
Defined.

(** Two iterations from the empty pools. *)
Lemma X9_witness :
  iterate_body 2 unbounded [module_a] initial_locals (start tape_pass_fail)
  = two_iterations
  ∧ ∃ l s',
      two_iterations = (Ok l, s')
      ∧ (length (test_cases l) + length (failing_test_cases l) ≤ 0 + 0 + 2)%nat
      ∧ execution_counter l = (0 + 2)%nat.
Proof.
  assert (iterate_body 2 unbounded [module_a] initial_locals
            (start tape_pass_fail) = two_iterations) as Hrun by compute_it.
  split; [exact Hrun|]. unfold two_iterations in *.
  eexists _, _. split; [reflexivity|].
  destruct (X9_pools_append_only (H := toy) unbounded [module_a] 2
              initial_locals (start tape_pass_fail) _ _ Hrun)
    as (_ & _ & Hcount & Hcounter).
  split; [exact Hcount|exact Hcounter].
Defined.

(** Three iterations, of which two execute a test case. *)
Lemma X10_witness :
  iterate_body 3 unbounded [module_a] initial_locals (start tape_zeros)
  = three_iterations
  ∧ ∃ l s' ex,
      three_iterations = (Ok l, s')
      ∧ executed (st_trace s') = executed (st_trace (start tape_zeros)) ++ ex
      ∧ test_cases l `sublist_of` ex
      ∧ (length ex ≤ 3)%nat.
Proof.
  assert (iterate_body 3 unbounded [module_a] initial_locals
            (start tape_zeros) = three_iterations) as Hrun by compute_it.
  split; [exact Hrun|]. unfold three_iterations in *.
  destruct (X10_accepted_were_executed (H := toy) unbounded [module_a] 3
              (start tape_zeros) _ _ Hrun)
    as (ex & Hex & Hp & _ & _ & Hn).
  eexists _, _, ex. split; [reflexivity|]. split; [exact Hex|].
  split; [exact Hp|exact Hn].
Defined.

(** The strict executor gives up on a call of [fail]. *)
Lemma X11_witness :
  @candidate toy_strict unbounded [] [module_a] (strict_start [0; 1; 0]%nat)
  = strict_candidate
  ∧ ∃ (new : @test_case toy_strict) (s1 : @state toy_strict),
      strict_candidate = (Ok new, s1)
      ∧ (strict_execute new (st_world s1)).1
        = Raise (GenerationException "executor gave up")
      ∧ @loop_body toy_strict unbounded [module_a]
          (@initial_locals toy_strict) (strict_start [0; 1; 0]%nat)
        = (Ok (@Build_locals toy_strict [] [] 1),
           @Build_state toy_strict
             (strict_execute new (st_world s1)).2
             (st_trace s1
              ++ [ExecuteCalled new;
                  Logged DEBUG
                    (LogGenerateFailed
                       (GenerationException "executor gave up"))])).
Proof.
  assert (@candidate toy_strict unbounded [] [module_a]
            (strict_start [0; 1; 0]%nat) = strict_candidate) as Hrun
    by compute_it.
  split; [exact Hrun|]. unfold strict_candidate in *.
  eexists _, _. split; [reflexivity|]. split; [reflexivity|].
  exact (X11_executor_exception_caught (H := toy_strict) unbounded [module_a]
           (@initial_locals toy_strict) (strict_start [0; 1; 0]%nat) _ _
           "executor gave up" Hrun (not_elem_of_nil _) (not_elem_of_nil _)
           eq_refl).
Defined.

(** A module whose function has no signature. *)
Lemma X12_witness :
  prologue 4 [module_d] (start []) = prologue_d
  ∧ ∃ objs s1 s3,
      prologue_d = (Ok objs, s1)
      ∧ step_d = (Raise ValueError, s3)
      ∧ generate_sequences 10 seconds unbounded 4 [module_d] (start [])
        = Some (Raise ValueError, s3).
Proof.
  assert (prologue 4 [module_d] (start []) = prologue_d) as Hpro
    by compute_it.
  split; [exact Hpro|]. unfold prologue_d in *.
  eexists _, _, _. split; [reflexivity|]. split; [reflexivity|].
  refine (X12_other_exceptions_end_the_run (H := toy) 10 seconds unbounded 4
            [module_d] (start []) _ _ 0 initial_locals _ ValueError _
            Hpro eq_refl _ eq_refl _ _).
  - compute_it.
  - intros i Hi. unfold seconds. lia.
  - lia.
Defined.

(** A time limit of zero. *)
Lemma X13_witness :
  0 ≤ 0 ∧ seconds O ≤ seconds 1%nat
  ∧ prologue 0 [module_a] (start []) = prologue_zero
  ∧ ∃ s', generate_sequences 1 seconds unbounded 0 [module_a] (start [])
          = Some (Ok ([], []), s').
Proof.
  assert (seconds O ≤ seconds 1%nat) as Hclock by (unfold seconds; lia).
  assert (prologue 0 [module_a] (start []) = prologue_zero) as Hpro
    by compute_it.
  split; [lia|]. split; [exact Hclock|]. split; [exact Hpro|].
  unfold prologue_zero in Hpro. eexists.
  exact (X13_no_time_no_iteration (H := toy) 0 seconds unbounded 0 [module_a]
           (start []) _ _ (Z.le_refl 0) Hclock Hpro).
Defined.


(** No targets, and time left. *)
Lemma X15_witness :
  seconds 1%nat - seconds O < 4 * 1000000
  ∧ generate_sequences 1 seconds unbounded 4 [] (start [])
    = Some (Raise IndexError,
            {| st_world := [];
               st_trace :=
                 [Logged INFO LogStart; Logged DEBUG (LogTimeLimit 4);
                  Logged DEBUG (LogModules [])] |}).
Proof.
  assert (seconds 1%nat - seconds O < 4 * 1000000) as Hbefore
    by (unfold seconds; lia).
  split; [exact Hbefore|].
  exact (X15_no_targets (H := toy) 0 seconds unbounded 4 (start []) Hbefore).
Defined.

End FurtherRuns.
